(** * gob_stdmap: a std::map work-alike stored in a sorted std::vector

    Shallow embedding of [goblib::stdmap] (src/gob_stdmap.hpp) and the
    properties of its lookup, insertion and erasure operations.

    Iterators are modelled by their offset from [begin()], so the end
    sentinel of a container [v] is [length v].  The backing
    [std::vector<std::pair<Key,T>>] is a [list (Key * T)]. *)

From Stdlib Require Import String List Arith Bool Lia ZArith Sorted.
Import ListNotations.

Set Implicit Arguments.

(** ** The pieces of the C++ standard library that the header calls *)

Module Std.

Section Algorithm.
Context {A B : Type}.

(** [std::lower_bound(first, last, val, comp)]: the halving loop
<<
    while (len > 0) {
        half = len >> 1;  middle = first + half;
        if (comp(middle[0], val)) { first = middle + 1; len = len - half - 1; }
        else                    len = half;
    }
    return first;
>>
    [fuel] bounds the number of iterations; [len] at least halves at
    every turn, so [len] itself is enough fuel. *)
Fixpoint lower_bound_loop (fuel : nat) (v : list A) (val : B)
         (comp : A -> B -> bool) (first len : nat) : nat :=
  match fuel with
  | O => first
  | S fuel' =>
      if len =? 0 then first
      else
        let half := Nat.div2 len in
        let middle := first + half in
        match nth_error v middle with
        | Some m =>
            if comp m val
            then lower_bound_loop fuel' v val comp (middle + 1) (len - half - 1)
            else lower_bound_loop fuel' v val comp first half
        | None => first
        end
  end.

Definition lower_bound (v : list A) (val : B) (comp : A -> B -> bool) : nat :=
  lower_bound_loop (length v) v val comp 0 (length v).

(** [std::upper_bound(first, last, val, comp)]:
<<
    while (len > 0) {
        half = len >> 1;  middle = first + half;
        if (comp(val, middle[0])) len = half;
        else { first = middle + 1; len = len - half - 1; }
    }
    return first;
>> *)
Fixpoint upper_bound_loop (fuel : nat) (v : list A) (val : B)
         (comp : B -> A -> bool) (first len : nat) : nat :=
  match fuel with
  | O => first
  | S fuel' =>
      if len =? 0 then first
      else
        let half := Nat.div2 len in
        let middle := first + half in
        match nth_error v middle with
        | Some m =>
            if comp val m
            then upper_bound_loop fuel' v val comp first half
            else upper_bound_loop fuel' v val comp (middle + 1) (len - half - 1)
        | None => first
        end
  end.

Definition upper_bound (v : list A) (val : B) (comp : B -> A -> bool) : nat :=
  upper_bound_loop (length v) v val comp 0 (length v).
End Algorithm.

Section Vector.
Context {A : Type}.

(** [vector::insert(pos, x)] / [vector::emplace(pos, x)]: opens a slot at
    [pos], shifting the tail up; returns the position of the new element. *)
Definition vector_insert (v : list A) (pos : nat) (x : A) : list A * nat :=
  (firstn pos v ++ x :: skipn pos v, pos).

(** [vector::erase(first, last)]: closes the slots [first, last); returns
    the position that followed the last removed element. *)
Definition vector_erase_range (v : list A) (first last : nat) : list A * nat :=
  (firstn first v ++ skipn last v, first).

(** [vector::erase(pos)]. *)
Definition vector_erase (v : list A) (pos : nat) : list A * nat :=
  vector_erase_range v pos (pos + 1).
End Vector.

Section Comparison.
Context {A : Type}.

(** [std::equal(first1, last1, first2, pred)]:
<<
    for (; first1 != last1; ++first1, ++first2)
        if (!pred(first1[0], first2[0])) return false;
    return true;
>>
    The second range is read as far as the first one reaches; the caller
    has to make it at least as long.  Past its end the model answers
    [false]. *)
Fixpoint equal (l1 l2 : list A) (pred : A -> A -> bool) : bool :=
  match l1 with
  | [] => true
  | x :: l1' =>
      match l2 with
      | [] => false
      | y :: l2' => if negb (pred x y) then false else equal l1' l2' pred
      end
  end.

(** [std::lexicographical_compare(first1, last1, first2, last2, comp)]:
<<
    for (; first1 != last1 && first2 != last2; ++first1, ++first2) {
        if (comp(first1[0], first2[0])) return true;
        if (comp(first2[0], first1[0])) return false;
    }
    return first1 == last1 && first2 != last2;
>> *)
Fixpoint lexicographical_compare (l1 l2 : list A) (comp : A -> A -> bool) : bool :=
  match l1, l2 with
  | x :: l1', y :: l2' =>
      if comp x y then true
      else if comp y x then false
      else lexicographical_compare l1' l2' comp
  | [], _ :: _ => true
  | _, [] => false
  end.
End Comparison.

End Std.

(** ** The container *)

(** What a call that may fail hard does: return, throw
    [std::out_of_range(what)], or [abort()] the program. *)
Inductive result (R : Type) : Type :=
| Returns (r : R)
| Throws_out_of_range (what : string)
| Aborts.
Arguments Returns {R} r.
Arguments Throws_out_of_range {R} what.
Arguments Aborts {R}.

(** [failed r]: the call did not return. *)
Definition failed {R : Type} (r : result R) : bool :=
  match r with
  | Returns _ => false
  | Throws_out_of_range _ => true
  | Aborts => true
  end.

(** [std::less<int>], the comparator of [goblib::stdmap<int,int>]. *)
Definition int_less (a b : Z) : bool := (a <? b)%Z.

(** A [goblib::stdmap<int,int>] holding the keys 1, 3 and 5. *)
Definition odd_keys : list (Z * Z) := [(1, 10); (3, 30); (5, 50)]%Z.

Section Stdmap.
Variables Key T : Type.

(** The [Compare] object held in [_compare_key], the value [T()] of a
    default-constructed mapped value, and whether the translation unit is
    compiled with exceptions ([defined(__EXCEPTIONS)]). *)
Variable Compare : Key -> Key -> bool.
Variable T_default : T.
Variable EXCEPTIONS : bool.

Definition key_type : Type := Key.
Definition mapped_type : Type := T.
Definition value_type : Type := (Key * T)%type.
Definition container_type : Type := list value_type.
Definition size_type : Type := nat.
Definition iterator : Type := nat.

(** [ValueCompare::operator()]: [cmp(a.first, b.first)]. *)
Definition _compare_value (a b : value_type) : bool := Compare (fst a) (fst b).

Definition ne_key (a b : key_type) : bool := Compare a b || Compare b a.
Definition eq_key (a b : key_type) : bool := negb (ne_key a b).

Definition begin_ (v : container_type) : iterator := 0.
Definition end_ (v : container_type) : iterator := length v.
Definition size (v : container_type) : size_type := length v.
Definition empty (v : container_type) : bool := length v =? 0.
Definition clear (v : container_type) : container_type := [].

(** The guard [it == _v.end() || ne_key(it->first, key)].  An iterator
    past the end is never produced by the container; there the guard is
    given the value it has at the end. *)
Definition end_or_ne_key (v : container_type) (it : iterator) (key : key_type) : bool :=
  (it =? end_ v) ||
  match nth_error v it with
  | Some p => ne_key (fst p) key
  | None => true
  end.

(** The guard [it != _v.end() && eq_key(it->first, key)]. *)
Definition not_end_and_eq_key (v : container_type) (it : iterator) (key : key_type) : bool :=
  negb (it =? end_ v) &&
  match nth_error v it with
  | Some p => eq_key (fst p) key
  | None => false
  end.

(** *** Constructors and assignment *)

Definition stdmap_default : container_type := [].

(** [stdmap(InputIterator first, InputIterator last, ...) : _v(first, last, alloc)] *)
Definition stdmap_range (first_last : list value_type) : container_type := first_last.

(** [stdmap(std::initializer_list<value_type> init, ...) : stdmap(init.begin(), init.end(), ...)] *)
Definition stdmap_initializer_list (init : list value_type) : container_type :=
  stdmap_range init.

(** [operator=(std::initializer_list<value_type> il) { _v = il; }] *)
Definition assign_initializer_list (v : container_type) (il : list value_type)
  : container_type := il.

(** *** Lookup *)

Definition lower_bound_impl (v : container_type) (key : key_type) : iterator :=
  Std.lower_bound v key (fun pair k => Compare (fst pair) k).

Definition upper_bound_impl (v : container_type) (key : key_type) : iterator :=
  Std.upper_bound v key (fun k pair => Compare k (fst pair)).

Definition lower_bound (v : container_type) (key : key_type) : iterator :=
  lower_bound_impl v key.

Definition upper_bound (v : container_type) (key : key_type) : iterator :=
  upper_bound_impl v key.

Definition equal_range (v : container_type) (key : key_type) : iterator * iterator :=
  (lower_bound v key, upper_bound v key).

Definition find (v : container_type) (key : key_type) : iterator :=
  let it := Std.lower_bound v key (fun pair k => Compare (fst pair) k) in
  if not_end_and_eq_key v it key then it else end_ v.

Definition count (v : container_type) (key : key_type) : size_type :=
  if negb (find v key =? end_ v) then 1 else 0.

(** *** Element access

    A [T&] is modelled by the slot it designates: [operator[]] and [at]
    return the position [it] whose [second] the reference is bound to;
    [read_ref] and [write_ref] are a load and a store through it. *)

Definition read_ref (v : container_type) (it : iterator) : option T :=
  option_map snd (nth_error v it).

Fixpoint write_ref (v : container_type) (it : iterator) (x : T) : container_type :=
  match v, it with
  | [], _ => []
  | p :: v', O => (fst p, x) :: v'
  | p :: v', S it' => p :: write_ref v' it' x
  end.

(** [at_impl]: the container is not written to; the first component is the
    container as the call leaves it. *)
Definition at_impl (v : container_type) (key : key_type)
  : container_type * result iterator :=
  let it := find v key in
  if not_end_and_eq_key v it key then (v, Returns it)
  else if EXCEPTIONS then (v, Throws_out_of_range "gob_stdmap.at"%string)
  else (v, Aborts).

Definition at_ (v : container_type) (key : key_type) := at_impl v key.

(** [operator[]] *)
Definition operator_index (v : container_type) (key : key_type)
  : container_type * iterator :=
  let it := lower_bound v key in
  if end_or_ne_key v it key
  then Std.vector_insert v it (key, T_default)
  else (v, it).

(** *** Modifiers *)

(** [insert(const value_type& x)] *)
Definition insert (v : container_type) (x : value_type)
  : container_type * (iterator * bool) :=
  let it := lower_bound v (fst x) in
  if end_or_ne_key v it (fst x)
  then let '(v', it') := Std.vector_insert v it x in (v', (it', true))
  else (v, (it, false)).

(** [emplace(Args&&... args)], with [val] the entry built from [args]. *)
Definition emplace (v : container_type) (val : value_type)
  : container_type * (iterator * bool) :=
  let it := Std.lower_bound v val (fun a b => _compare_value a b) in
  if end_or_ne_key v it (fst val)
  then let '(v', it') := Std.vector_insert v it val in (v', (it', true))
  else (v, (it, false)).

(** [template <class P> insert(P&& x)] *)
Definition insert_P (v : container_type) (x : value_type) := emplace v x.

(** [insert(const_iterator position, const value_type& x)] *)
Definition insert_hint (v : container_type) (position : iterator) (x : value_type)
  : container_type * iterator :=
  let it := if position =? end_ v then position else lower_bound v (fst x) in
  if end_or_ne_key v it (fst x)
  then Std.vector_insert v it x
  else (v, begin_ v + (it - begin_ v)).

(** [emplace_hint(const_iterator hint, Args&&... args)] *)
Definition emplace_hint (v : container_type) (hint : iterator) (val : value_type)
  : container_type * iterator :=
  let it := if hint =? end_ v then hint else lower_bound v (fst val) in
  if end_or_ne_key v it (fst val)
  then Std.vector_insert v it val
  else (v, begin_ v + (hint - begin_ v)).

(** [template <class P> insert(const_iterator position, P&& x)] *)
Definition insert_hint_P (v : container_type) (position : iterator) (x : value_type) :=
  emplace_hint v position x.

(** [insert(InputIterator first, InputIterator last)]: one [insert] per
    element, in order. *)
Fixpoint insert_range (v : container_type) (first_last : list value_type)
  : container_type :=
  match first_last with
  | [] => v
  | x :: rest => insert_range (fst (insert v x)) rest
  end.

Definition insert_initializer_list (v : container_type) (init : list value_type) :=
  insert_range v init.

(** [erase(const key_type& key)] *)
Definition erase (v : container_type) (key : key_type) : container_type * size_type :=
  let it := find v key in
  if not_end_and_eq_key v it key
  then (fst (Std.vector_erase_range v it (it + 1)), 1)
  else (v, 0).

(** [erase(const_iterator position)] and [erase(first, last)] *)
Definition erase_position (v : container_type) (position : iterator) :=
  Std.vector_erase v position.

Definition erase_range (v : container_type) (first last : iterator) :=
  Std.vector_erase_range v first last.

(** *** The sortedness invariant

    Every adjacent pair of entries is in strict [Compare] order. *)
Fixpoint sorted (v : container_type) : bool :=
  match v with
  | [] => true
  | a :: v' =>
      match v' with
      | [] => true
      | b :: _ => Compare (fst a) (fst b) && sorted v'
      end
  end.

(** Hint validity, as the earlier revision of the header checks it:
<<
    (position == begin() || comp(position[-1], x)) &&
    (position == end()   || comp(x, position[0]))
>> *)
Definition valid_hint (v : container_type) (position : iterator) (x : value_type) : bool :=
  ((position =? begin_ v) ||
   match nth_error v (position - 1) with
   | Some p => _compare_value p x
   | None => false
   end) &&
  ((position =? end_ v) ||
   match nth_error v position with
   | Some p => _compare_value x p
   | None => false
   end).
(** *** Dereferencing a lookup

    [lookup v key] is the entry [find(key)] points at, if it is not the end
    sentinel. *)
Definition lookup (v : container_type) (key : key_type) : option value_type :=
  let it := find v key in
  if it =? end_ v then None else nth_error v it.

(** *** Iteration

    What a traversal from [begin()] to [end()] and one from [rbegin()] to
    [rend()] visit, in order. *)
Definition iteration (v : container_type) : list value_type := v.
Definition reverse_iteration (v : container_type) : list value_type := rev v.

(** *** Whole-container comparison

    [T_eq] is [operator==] and [T_lt] is [operator<] on the mapped type. *)

(** The predicate of [operator==]: same keys (neither ordered before the
    other) and same values. *)
Definition same_entry (T_eq : T -> T -> bool) (x y : value_type) : bool :=
  negb (Compare (fst x) (fst y) || Compare (fst y) (fst x)) && T_eq (snd x) (snd y).

(** The comparison of [operator<]: by value if the keys are the same, by
    key otherwise. *)
Definition entry_less (T_lt : T -> T -> bool) (x y : value_type) : bool :=
  if negb (Compare (fst x) (fst y) || Compare (fst y) (fst x))
  then T_lt (snd x) (snd y)
  else Compare (fst x) (fst y).

Definition operator_eq (T_eq : T -> T -> bool) (a b : container_type) : bool :=
  (size a =? size b) && Std.equal a b (same_entry T_eq).

Definition operator_ne (T_eq : T -> T -> bool) (a b : container_type) : bool :=
  negb (operator_eq T_eq a b).

Definition operator_lt (T_lt : T -> T -> bool) (a b : container_type) : bool :=
  Std.lexicographical_compare a b (entry_less T_lt).

Definition operator_gt (T_lt : T -> T -> bool) (a b : container_type) : bool :=
  operator_lt T_lt b a.

Definition operator_le (T_lt : T -> T -> bool) (a b : container_type) : bool :=
  negb (operator_gt T_lt a b).

Definition operator_ge (T_lt : T -> T -> bool) (a b : container_type) : bool :=
  negb (operator_lt T_lt a b).

Unset Implicit Arguments.

(** *** Where a key sits in a sorted container

    [below key p]: the entry [p] is ordered before [key];
    [above key p]: [key] is ordered before the entry [p]. *)
Definition below (key : key_type) (p : value_type) : Prop := Compare (fst p) key = true.
Definition above (key : key_type) (p : value_type) : Prop := Compare key (fst p) = true.
Definition precedes (a b : value_type) : Prop := _compare_value a b = true.

(** [present v key]: some stored entry has a key equivalent to [key]. *)
Definition present (v : container_type) (key : key_type) : Prop :=
  exists p, In p v /\ eq_key (fst p) key = true.

(** The shape of a sorted container around [key]: the entries below it,
    at most one entry equivalent to it, the entries above it. *)
Inductive located (key : key_type) (v : container_type) : Prop :=
| key_absent (l1 l2 : container_type) :
    v = l1 ++ l2 ->
    Forall (below key) l1 -> Forall (above key) l2 ->
    located key v
| key_present (l1 : container_type) (p : value_type) (l2 : container_type) :
    v = l1 ++ p :: l2 ->
    Forall (below key) l1 -> eq_key (fst p) key = true -> Forall (above key) l2 ->
    located key v.

(** *** Sequences of calls

    One [insert] (either un-hinted overload, a range, or hinted with a
    position other than the end sentinel), [emplace], [emplace_hint] with a
    hint other than the end sentinel, or [erase] (by key, by position, by
    range of positions) call. *)
Inductive step : container_type -> container_type -> Prop :=
| step_insert v x : step v (fst (insert v x))
| step_insert_P v x : step v (fst (insert_P v x))
| step_insert_range v l : step v (insert_range v l)
| step_insert_hint v position x :
    position < size v -> step v (fst (insert_hint v position x))
| step_emplace v val : step v (fst (emplace v val))
| step_emplace_hint v hint val :
    hint < size v -> step v (fst (emplace_hint v hint val))
| step_erase v key : step v (fst (erase v key))
| step_erase_position v position :
    position < size v -> step v (fst (erase_position v position))
| step_erase_range v first last :
    first <= last <= size v -> step v (fst (erase_range v first last)).

Inductive reachable : container_type -> Prop :=
| reachable_empty : reachable stdmap_default
| reachable_step v v' : reachable v -> step v v' -> reachable v'.

(** *** The operations of the class as calls

    One call of a member function on a container, or of a comparison
    operator with the container on the left, and what the call hands back.
    [run] gives the container after the call and its outcome: the body of
    [at_impl] is the only one with a [throw] or an [abort()], so the outcome
    of [at] is the one [at_impl] has and every other call returns. *)
Inductive answer : Type :=
| answer_void
| answer_position (it : iterator)
| answer_position_flag (it : iterator) (inserted : bool)
| answer_positions (first last : iterator)
| answer_size (n : size_type)
| answer_bool (b : bool).

Inductive operation : Type :=
| call_at (key : key_type)
| call_operator_index (key : key_type)
| call_begin
| call_end
| call_empty
| call_size
| call_clear
| call_insert (x : value_type)
| call_insert_P (x : value_type)
| call_insert_hint (position : iterator) (x : value_type)
| call_insert_hint_P (position : iterator) (x : value_type)
| call_insert_range (first_last : list value_type)
| call_insert_initializer_list (init : list value_type)
| call_emplace (val : value_type)
| call_emplace_hint (hint : iterator) (val : value_type)
| call_erase (key : key_type)
| call_erase_position (position : iterator)
| call_erase_range (first last : iterator)
| call_count (key : key_type)
| call_find (key : key_type)
| call_lower_bound (key : key_type)
| call_upper_bound (key : key_type)
| call_equal_range (key : key_type)
| call_assign_initializer_list (il : list value_type)
| call_operator_eq (b : container_type)
| call_operator_ne (b : container_type)
| call_operator_lt (b : container_type)
| call_operator_gt (b : container_type)
| call_operator_le (b : container_type)
| call_operator_ge (b : container_type).

Definition run (T_eq T_lt : T -> T -> bool) (v : container_type) (op : operation)
  : container_type * result answer :=
  match op with
  | call_at key =>
      (fst (at_ v key),
       match snd (at_ v key) with
       | Returns it => Returns (answer_position it)
       | Throws_out_of_range what => Throws_out_of_range what
       | Aborts => Aborts
       end)
  | call_operator_index key =>
      (fst (operator_index v key), Returns (answer_position (snd (operator_index v key))))
  | call_begin => (v, Returns (answer_position (begin_ v)))
  | call_end => (v, Returns (answer_position (end_ v)))
  | call_empty => (v, Returns (answer_bool (empty v)))
  | call_size => (v, Returns (answer_size (size v)))
  | call_clear => (clear v, Returns answer_void)
  | call_insert x =>
      (fst (insert v x),
       Returns (answer_position_flag (fst (snd (insert v x))) (snd (snd (insert v x)))))
  | call_insert_P x =>
      (fst (insert_P v x),
       Returns (answer_position_flag (fst (snd (insert_P v x))) (snd (snd (insert_P v x)))))
  | call_insert_hint position x =>
      (fst (insert_hint v position x),
       Returns (answer_position (snd (insert_hint v position x))))
  | call_insert_hint_P position x =>
      (fst (insert_hint_P v position x),
       Returns (answer_position (snd (insert_hint_P v position x))))
  | call_insert_range first_last => (insert_range v first_last, Returns answer_void)
  | call_insert_initializer_list init =>
      (insert_initializer_list v init, Returns answer_void)
  | call_emplace val =>
      (fst (emplace v val),
       Returns (answer_position_flag (fst (snd (emplace v val))) (snd (snd (emplace v val)))))
  | call_emplace_hint hint val =>
      (fst (emplace_hint v hint val),
       Returns (answer_position (snd (emplace_hint v hint val))))
  | call_erase key => (fst (erase v key), Returns (answer_size (snd (erase v key))))
  | call_erase_position position =>
      (fst (erase_position v position),
       Returns (answer_position (snd (erase_position v position))))
  | call_erase_range first last =>
      (fst (erase_range v first last),
       Returns (answer_position (snd (erase_range v first last))))
  | call_count key => (v, Returns (answer_size (count v key)))
  | call_find key => (v, Returns (answer_position (find v key)))
  | call_lower_bound key => (v, Returns (answer_position (lower_bound v key)))
  | call_upper_bound key => (v, Returns (answer_position (upper_bound v key)))
  | call_equal_range key =>
      (v, Returns (answer_positions (fst (equal_range v key)) (snd (equal_range v key))))
  | call_assign_initializer_list il =>
      (assign_initializer_list v il, Returns answer_void)
  | call_operator_eq b => (v, Returns (answer_bool (operator_eq T_eq v b)))
  | call_operator_ne b => (v, Returns (answer_bool (operator_ne T_eq v b)))
  | call_operator_lt b => (v, Returns (answer_bool (operator_lt T_lt v b)))
  | call_operator_gt b => (v, Returns (answer_bool (operator_gt T_lt v b)))
  | call_operator_le b => (v, Returns (answer_bool (operator_le T_lt v b)))
  | call_operator_ge b => (v, Returns (answer_bool (operator_ge T_lt v b)))
  end.

(** ** Binary search on a partitioned range *)

Section BinarySearch.
Context {A B : Type}.

Lemma div2_lt_pos (n : nat) : n <> 0 -> Nat.div2 n < n.
Proof. intros H. apply Nat.lt_div2. lia. Qed.

Lemma lower_bound_loop_partition (val : B) (comp : A -> B -> bool)
      (l1 l2 : list A) :
  Forall (fun a => comp a val = true) l1 ->
  Forall (fun a => comp a val = false) l2 ->
  forall fuel first len,
    len <= fuel ->
    first <= length l1 <= first + len ->
    first + len <= length (l1 ++ l2) ->
    Std.lower_bound_loop fuel (l1 ++ l2) val comp first len = length l1.
Proof.
  intros H1 H2.
  induction fuel as [|fuel IH]; intros first len Hf Hb Hlen; simpl.
  - lia.
  - destruct (Nat.eqb_spec len 0) as [->|Hne]; [lia|].
    pose proof (div2_lt_pos len Hne) as Hhalf.
    generalize dependent (Nat.div2 len); intros half Hhalf.
    destruct (nth_error (l1 ++ l2) (first + half)) as [m|] eqn:Hm.
    + destruct (Nat.lt_ge_cases (first + half) (length l1)) as [Hlt|Hge].
      * rewrite nth_error_app1 in Hm by assumption.
        apply nth_error_In in Hm.
        rewrite Forall_forall in H1. rewrite (H1 _ Hm).
        apply IH; lia.
      * rewrite nth_error_app2 in Hm by assumption.
        apply nth_error_In in Hm.
        rewrite Forall_forall in H2. rewrite (H2 _ Hm).
        apply IH; lia.
    + apply nth_error_None in Hm. lia.
Qed.

Lemma upper_bound_loop_partition (val : B) (comp : B -> A -> bool)
      (l1 l2 : list A) :
  Forall (fun a => comp val a = false) l1 ->
  Forall (fun a => comp val a = true) l2 ->
  forall fuel first len,
    len <= fuel ->
    first <= length l1 <= first + len ->
    first + len <= length (l1 ++ l2) ->
    Std.upper_bound_loop fuel (l1 ++ l2) val comp first len = length l1.
Proof.
  intros H1 H2.
  induction fuel as [|fuel IH]; intros first len Hf Hb Hlen; simpl.
  - lia.
  - destruct (Nat.eqb_spec len 0) as [->|Hne]; [lia|].
    pose proof (div2_lt_pos len Hne) as Hhalf.
    generalize dependent (Nat.div2 len); intros half Hhalf.
    destruct (nth_error (l1 ++ l2) (first + half)) as [m|] eqn:Hm.
    + destruct (Nat.lt_ge_cases (first + half) (length l1)) as [Hlt|Hge].
      * rewrite nth_error_app1 in Hm by assumption.
        apply nth_error_In in Hm.
        rewrite Forall_forall in H1. rewrite (H1 _ Hm).
        apply IH; lia.
      * rewrite nth_error_app2 in Hm by assumption.
        apply nth_error_In in Hm.
        rewrite Forall_forall in H2. rewrite (H2 _ Hm).
        apply IH; lia.
    + apply nth_error_None in Hm. lia.
Qed.

Lemma lower_bound_partition (val : B) (comp : A -> B -> bool) (l1 l2 : list A) :
  Forall (fun a => comp a val = true) l1 ->
  Forall (fun a => comp a val = false) l2 ->
  Std.lower_bound (l1 ++ l2) val comp = length l1.
Proof.
  intros H1 H2. unfold Std.lower_bound.
  apply lower_bound_loop_partition; auto; rewrite ?length_app; lia.
Qed.

Lemma upper_bound_partition (val : B) (comp : B -> A -> bool) (l1 l2 : list A) :
  Forall (fun a => comp val a = false) l1 ->
  Forall (fun a => comp val a = true) l2 ->
  Std.upper_bound (l1 ++ l2) val comp = length l1.
Proof.
  intros H1 H2. unfold Std.upper_bound.
  apply upper_bound_loop_partition; auto; rewrite ?length_app; lia.
Qed.
End BinarySearch.

(** ** Lists cut at the length of a prefix *)

Section ListCuts.
Context {A : Type}.

Lemma firstn_length_app (l1 l2 : list A) : firstn (length l1) (l1 ++ l2) = l1.
Proof. induction l1 as [|a l1 IH]; simpl; [now destruct l2|now rewrite IH]. Qed.

Lemma skipn_length_app (l1 l2 : list A) : skipn (length l1) (l1 ++ l2) = l2.
Proof. induction l1 as [|a l1 IH]; simpl; auto. Qed.

Lemma skipn_length_app_S (l1 : list A) (a : A) (l2 : list A) :
  skipn (length l1 + 1) (l1 ++ a :: l2) = l2.
Proof. induction l1 as [|b l1 IH]; simpl; auto. Qed.

Lemma nth_error_length_app (l1 l2 : list A) :
  nth_error (l1 ++ l2) (length l1) = nth_error l2 0.
Proof. induction l1 as [|a l1 IH]; simpl; auto. Qed.

Lemma nth_error_split_at (v : list A) (i : nat) (a : A) :
  nth_error v i = Some a ->
  v = firstn i v ++ a :: skipn (S i) v /\ length (firstn i v) = i.
Proof.
  revert i. induction v as [|b v IH]; intros [|i] H; simpl in *; try discriminate.
  - inversion H. auto.
  - destruct (IH i H) as [E L]. split; [now rewrite <- E | now rewrite L].
Qed.
Lemma nth_error_prefix (l1 l2 : list A) (i : nat) (a : A) :
  i < length l1 -> nth_error (l1 ++ l2) i = Some a -> In a l1.
Proof.
  intros Hi H. rewrite nth_error_app1 in H by assumption.
  eapply nth_error_In; eassumption.
Qed.

Lemma nth_error_suffix (l1 l2 : list A) (i : nat) (a : A) :
  length l1 <= i -> nth_error (l1 ++ l2) i = Some a -> In a l2.
Proof.
  intros Hi H. rewrite nth_error_app2 in H by assumption.
  eapply nth_error_In; eassumption.
Qed.
Lemma nth_error_slot (l1 l2 : list A) (a : A) (j : nat) :
  nth_error (l1 ++ a :: l2) (if j <? length l1 then j else j + 1) =
  nth_error (l1 ++ l2) j.
Proof.
  destruct (Nat.ltb_spec j (length l1)) as [H|H].
  - now rewrite !nth_error_app1 by assumption.
  - rewrite !nth_error_app2 by lia.
    replace (j + 1 - length l1) with (S (j - length l1)) by lia. reflexivity.
Qed.

Lemma filter_keep_all (f : A -> bool) (l : list A) :
  Forall (fun a => f a = true) l -> filter f l = l.
Proof.
  induction 1 as [|a l Ha _ IH]; simpl; [reflexivity|]. now rewrite Ha, IH.
Qed.

Lemma filter_drop_all (f : A -> bool) (l : list A) :
  Forall (fun a => f a = false) l -> filter f l = [].
Proof.
  induction 1 as [|a l Ha _ IH]; simpl; [reflexivity|]. now rewrite Ha, IH.
Qed.

Lemma Forall_skipn_of (P : A -> Prop) (n : nat) (l : list A) :
  Forall P l -> Forall P (skipn n l).
Proof.
  revert l. induction n as [|n IH]; intros l H; simpl; [assumption|].
  destruct l as [|a l]; [constructor|]. inversion H; subst. auto.
Qed.

Lemma skipn_le_split (a b : nat) (l : list A) :
  a <= b -> skipn b l = skipn (b - a) (skipn a l).
Proof. intros H. rewrite skipn_skipn. f_equal. lia. Qed.
End ListCuts.

(** ** The comparator is a strict weak order *)

Section StrictWeakOrder.
Hypothesis Compare_irrefl : forall a, Compare a a = false.
Hypothesis Compare_trans :
  forall a b c, Compare a b = true -> Compare b c = true -> Compare a c = true.
Hypothesis Compare_equiv_trans :
  forall a b c, eq_key a b = true -> eq_key b c = true -> eq_key a c = true.

Lemma Compare_asym a b : Compare a b = true -> Compare b a = false.
Proof.
  intros Hab. destruct (Compare b a) eqn:Hba; [|reflexivity].
  rewrite <- (Compare_irrefl a). symmetry. eauto.
Qed.

Lemma eq_key_true a b :
  eq_key a b = true <-> Compare a b = false /\ Compare b a = false.
Proof.
  unfold eq_key, ne_key. rewrite negb_true_iff, orb_false_iff. tauto.
Qed.

Lemma eq_key_false a b :
  eq_key a b = false <-> Compare a b = true \/ Compare b a = true.
Proof.
  unfold eq_key, ne_key. rewrite negb_false_iff, orb_true_iff. tauto.
Qed.

Lemma eq_key_sym a b : eq_key a b = eq_key b a.
Proof. unfold eq_key, ne_key. now rewrite orb_comm. Qed.

(** If [a] is before [b], any [c] is after [a] or before [b]. *)
Lemma Compare_cotrans a b c :
  Compare a b = true -> Compare a c = true \/ Compare c b = true.
Proof.
  intros Hab.
  destruct (Compare a c) eqn:Hac; [now left|].
  destruct (Compare c b) eqn:Hcb; [now right|].
  exfalso.
  destruct (Compare c a) eqn:Hca.
  { rewrite (Compare_trans _ _ _ Hca Hab) in Hcb. discriminate. }
  destruct (Compare b c) eqn:Hbc.
  { rewrite (Compare_trans _ _ _ Hab Hbc) in Hac. discriminate. }
  assert (E : eq_key a b = true).
  { apply (Compare_equiv_trans a c b); apply eq_key_true; auto. }
  apply eq_key_true in E. destruct E as [E _]. congruence.
Qed.

Lemma below_equiv a k k' :
  Compare a k = true -> eq_key k k' = true -> Compare a k' = true.
Proof.
  intros Hak E. apply eq_key_true in E. destruct E as [_ E].
  destruct (Compare_cotrans a k k' Hak) as [H|H]; congruence.
Qed.

Lemma above_equiv a k k' :
  Compare k a = true -> eq_key k k' = true -> Compare k' a = true.
Proof.
  intros Hka E. apply eq_key_true in E. destruct E as [E _].
  destruct (Compare_cotrans k a k' Hka) as [H|H]; congruence.
Qed.

(** *** Sortedness of concatenations *)

Lemma sorted_cons a v :
  sorted (a :: v) = true <-> sorted v = true /\ Forall (precedes a) v.
Proof.
  revert a. induction v as [|b v IH]; intros a.
  - simpl. split; auto.
  - change (sorted (a :: b :: v)) with (Compare (fst a) (fst b) && sorted (b :: v)).
    rewrite andb_true_iff. split.
    + intros [Hab Hs]. split; [assumption|].
      constructor; [exact Hab|].
      apply IH in Hs. destruct Hs as [_ Hs].
      eapply Forall_impl; [|exact Hs].
      intros c Hbc. unfold precedes, _compare_value in *. eauto.
    + intros [Hs Hall]. split; [|assumption].
      inversion Hall; assumption.
Qed.

Lemma sorted_app l1 l2 :
  sorted (l1 ++ l2) = true <->
  sorted l1 = true /\ sorted l2 = true /\
  Forall (fun a => Forall (precedes a) l2) l1.
Proof.
  induction l1 as [|a l1 IH].
  - simpl. intuition.
  - rewrite <- app_comm_cons, !sorted_cons, IH, Forall_app. split.
    + intros [(H1 & H2 & H3) [H4 H5]]. repeat split; auto.
    + intros [[H1 H4] [H2 H3]]. inversion H3; subst. repeat split; auto.
Qed.

Lemma sorted_located key v : sorted v = true -> located key v.
Proof.
  induction v as [|a v IH]; intros Hs.
  - apply (key_absent key [] [] []); constructor.
  - apply sorted_cons in Hs. destruct Hs as [Hs Ha].
    destruct (Compare (fst a) key) eqn:Hak.
    + destruct (IH Hs) as [l1 l2 -> H1 H2 | l1 p l2 -> H1 Hp H2].
      * apply (key_absent key (a :: l1 ++ l2) (a :: l1) l2); auto.
      * apply (key_present key (a :: l1 ++ p :: l2) (a :: l1) p l2); auto.
    + destruct (Compare key (fst a)) eqn:Hka.
      * apply (key_absent key (a :: v) [] (a :: v)); auto.
        constructor; [exact Hka|].
        eapply Forall_impl; [|exact Ha].
        intros b Hab. unfold above, precedes, _compare_value in *. eauto.
      * apply (key_present key (a :: v) [] a v); auto.
        { apply eq_key_true. auto. }
        eapply Forall_impl; [|exact Ha].
        intros b Hab. unfold above, precedes, _compare_value in *.
        apply (above_equiv (fst b) (fst a) key Hab).
        apply eq_key_true; auto.
Qed.
(** *** The binary searches on a located key *)

Lemma emplace_search_loop (v : container_type) (val : value_type) :
  forall fuel first len,
    Std.lower_bound_loop fuel v val (fun a b => _compare_value a b) first len =
    Std.lower_bound_loop fuel v (fst val) (fun pair k => Compare (fst pair) k) first len.
Proof.
  induction fuel as [|fuel IH]; intros first len; simpl; [reflexivity|].
  destruct (len =? 0); [reflexivity|].
  destruct (nth_error v (first + Nat.div2 len)) as [m|]; [|reflexivity].
  unfold _compare_value at 1. now rewrite !IH.
Qed.

Lemma emplace_search (v : container_type) (val : value_type) :
  Std.lower_bound v val (fun a b => _compare_value a b) = lower_bound v (fst val).
Proof. apply emplace_search_loop. Qed.

Lemma emplace_is_insert (v : container_type) (val : value_type) :
  emplace v val = insert v val.
Proof. unfold emplace, insert. now rewrite emplace_search. Qed.

Lemma above_not_below key l :
  Forall (above key) l -> Forall (fun p => Compare (fst p) key = false) l.
Proof. apply Forall_impl. intros p. apply Compare_asym. Qed.

Lemma below_not_above key l :
  Forall (below key) l -> Forall (fun p => Compare key (fst p) = false) l.
Proof. apply Forall_impl. intros p. apply Compare_asym. Qed.

Lemma lower_bound_absent key l1 l2 :
  Forall (below key) l1 -> Forall (above key) l2 ->
  lower_bound (l1 ++ l2) key = length l1.
Proof.
  intros H1 H2. unfold lower_bound, lower_bound_impl.
  apply lower_bound_partition; [exact H1|now apply above_not_below].
Qed.

Lemma lower_bound_present key l1 p l2 :
  Forall (below key) l1 -> eq_key (fst p) key = true -> Forall (above key) l2 ->
  lower_bound (l1 ++ p :: l2) key = length l1.
Proof.
  intros H1 Hp H2. unfold lower_bound, lower_bound_impl.
  apply lower_bound_partition; [exact H1|].
  constructor; [now apply eq_key_true in Hp|now apply above_not_below].
Qed.

Lemma upper_bound_absent key l1 l2 :
  Forall (below key) l1 -> Forall (above key) l2 ->
  upper_bound (l1 ++ l2) key = length l1.
Proof.
  intros H1 H2. unfold upper_bound, upper_bound_impl.
  apply upper_bound_partition; [now apply below_not_above|exact H2].
Qed.

Lemma upper_bound_present key l1 p l2 :
  Forall (below key) l1 -> eq_key (fst p) key = true -> Forall (above key) l2 ->
  upper_bound (l1 ++ p :: l2) key = length l1 + 1.
Proof.
  intros H1 Hp H2. unfold upper_bound, upper_bound_impl.
  change (l1 ++ p :: l2) with (l1 ++ [p] ++ l2). rewrite app_assoc.
  rewrite upper_bound_partition; [now rewrite length_app|..|exact H2].
  apply Forall_app. split; [now apply below_not_above|].
  constructor; [now apply eq_key_true in Hp|constructor].
Qed.

(** *** The two guards at the lower bound *)

Lemma end_or_ne_key_absent key l1 l2 :
  Forall (above key) l2 -> end_or_ne_key (l1 ++ l2) (length l1) key = true.
Proof.
  intros H2. unfold end_or_ne_key, end_.
  rewrite nth_error_length_app.
  destruct l2 as [|p l2]; simpl.
  - rewrite app_nil_r, Nat.eqb_refl. reflexivity.
  - inversion H2 as [|? ? Hp _]; subst. unfold above in Hp.
    unfold ne_key. rewrite Hp, orb_true_r, orb_true_r. reflexivity.
Qed.

Lemma length_app_cons_neq (l1 : container_type) p l2 :
  (length l1 =? length (l1 ++ p :: l2)) = false.
Proof. apply Nat.eqb_neq. rewrite length_app. simpl. lia. Qed.

Lemma end_or_ne_key_present key l1 p l2 :
  eq_key (fst p) key = true ->
  end_or_ne_key (l1 ++ p :: l2) (length l1) key = false.
Proof.
  intros Hp. unfold end_or_ne_key, end_.
  rewrite nth_error_length_app, length_app_cons_neq. simpl.
  unfold eq_key in Hp. now apply negb_true_iff in Hp.
Qed.

Lemma not_end_and_eq_key_absent key l1 l2 :
  Forall (above key) l2 -> not_end_and_eq_key (l1 ++ l2) (length l1) key = false.
Proof.
  intros H2. unfold not_end_and_eq_key, end_.
  rewrite nth_error_length_app.
  destruct l2 as [|p l2]; simpl.
  - rewrite app_nil_r, Nat.eqb_refl. reflexivity.
  - inversion H2 as [|? ? Hp _]; subst. unfold above in Hp.
    unfold eq_key, ne_key. rewrite Hp, orb_true_r. simpl. apply andb_false_r.
Qed.

Lemma not_end_and_eq_key_present key l1 p l2 :
  eq_key (fst p) key = true ->
  not_end_and_eq_key (l1 ++ p :: l2) (length l1) key = true.
Proof.
  intros Hp. unfold not_end_and_eq_key, end_.
  rewrite nth_error_length_app, length_app_cons_neq. simpl. exact Hp.
Qed.

Lemma not_end_and_eq_key_end v key : not_end_and_eq_key v (end_ v) key = false.
Proof. unfold not_end_and_eq_key. now rewrite Nat.eqb_refl. Qed.

(** *** Each operation on a located key *)

Lemma find_absent key l1 l2 :
  Forall (below key) l1 -> Forall (above key) l2 ->
  find (l1 ++ l2) key = end_ (l1 ++ l2).
Proof.
  intros H1 H2. unfold find.
  change (Std.lower_bound (l1 ++ l2) key (fun pair k => Compare (fst pair) k))
    with (lower_bound (l1 ++ l2) key).
  rewrite lower_bound_absent, not_end_and_eq_key_absent; auto.
Qed.

Lemma find_present key l1 p l2 :
  Forall (below key) l1 -> eq_key (fst p) key = true -> Forall (above key) l2 ->
  find (l1 ++ p :: l2) key = length l1.
Proof.
  intros H1 Hp H2. unfold find.
  change (Std.lower_bound (l1 ++ p :: l2) key (fun pair k => Compare (fst pair) k))
    with (lower_bound (l1 ++ p :: l2) key).
  rewrite lower_bound_present, not_end_and_eq_key_present; auto.
Qed.

Lemma insert_absent x l1 l2 :
  Forall (below (fst x)) l1 -> Forall (above (fst x)) l2 ->
  insert (l1 ++ l2) x = (l1 ++ x :: l2, (length l1, true)).
Proof.
  intros H1 H2. unfold insert.
  rewrite lower_bound_absent, end_or_ne_key_absent by assumption.
  unfold Std.vector_insert. now rewrite firstn_length_app, skipn_length_app.
Qed.

Lemma insert_present x l1 p l2 :
  Forall (below (fst x)) l1 -> eq_key (fst p) (fst x) = true ->
  Forall (above (fst x)) l2 ->
  insert (l1 ++ p :: l2) x = (l1 ++ p :: l2, (length l1, false)).
Proof.
  intros H1 Hp H2. unfold insert.
  now rewrite lower_bound_present, end_or_ne_key_present by assumption.
Qed.

Lemma operator_index_absent key l1 l2 :
  Forall (below key) l1 -> Forall (above key) l2 ->
  operator_index (l1 ++ l2) key = (l1 ++ (key, T_default) :: l2, length l1).
Proof.
  intros H1 H2. unfold operator_index.
  rewrite lower_bound_absent, end_or_ne_key_absent by assumption.
  unfold Std.vector_insert. now rewrite firstn_length_app, skipn_length_app.
Qed.

Lemma operator_index_present key l1 p l2 :
  Forall (below key) l1 -> eq_key (fst p) key = true -> Forall (above key) l2 ->
  operator_index (l1 ++ p :: l2) key = (l1 ++ p :: l2, length l1).
Proof.
  intros H1 Hp H2. unfold operator_index.
  now rewrite lower_bound_present, end_or_ne_key_present by assumption.
Qed.

Lemma erase_absent key l1 l2 :
  Forall (below key) l1 -> Forall (above key) l2 ->
  erase (l1 ++ l2) key = (l1 ++ l2, 0).
Proof.
  intros H1 H2. unfold erase.
  now rewrite find_absent, not_end_and_eq_key_end by assumption.
Qed.

Lemma erase_present key l1 p l2 :
  Forall (below key) l1 -> eq_key (fst p) key = true -> Forall (above key) l2 ->
  erase (l1 ++ p :: l2) key = (l1 ++ l2, 1).
Proof.
  intros H1 Hp H2. unfold erase.
  rewrite find_present, not_end_and_eq_key_present by assumption.
  unfold Std.vector_erase_range. simpl.
  now rewrite firstn_length_app, skipn_length_app_S.
Qed.
(** *** Presence by position *)

Lemma sorted_split_present v key i p :
  sorted v = true -> nth_error v i = Some p -> eq_key (fst p) key = true ->
  v = firstn i v ++ p :: skipn (S i) v /\ length (firstn i v) = i /\
  Forall (below key) (firstn i v) /\ Forall (above key) (skipn (S i) v).
Proof.
  intros Hs Hi Hp.
  destruct (nth_error_split_at v i p Hi) as [E L].
  split; [exact E|]. split; [exact L|].
  rewrite E in Hs. apply sorted_app in Hs. destruct Hs as (_ & Hs2 & Hs1).
  apply sorted_cons in Hs2. destruct Hs2 as [_ Hs2].
  split.
  - eapply Forall_impl; [|exact Hs1].
    intros a Ha. inversion Ha as [|? ? Hap _]; subst.
    unfold below, precedes, _compare_value in *.
    now apply (below_equiv (fst a) (fst p) key).
  - eapply Forall_impl; [|exact Hs2].
    intros b Hb. unfold above, precedes, _compare_value in *.
    now apply (above_equiv (fst b) (fst p) key).
Qed.

Lemma below_not_equiv key p : below key p -> eq_key (fst p) key = false.
Proof. intros H. apply eq_key_false. now left. Qed.

Lemma above_not_equiv key p : above key p -> eq_key (fst p) key = false.
Proof. intros H. apply eq_key_false. now right. Qed.

Lemma absent_shape_no_equiv key l1 l2 :
  Forall (below key) l1 -> Forall (above key) l2 ->
  forall p, In p (l1 ++ l2) -> eq_key (fst p) key = false.
Proof.
  intros H1 H2 p Hp. rewrite Forall_forall in H1, H2.
  apply in_app_or in Hp. destruct Hp as [Hp|Hp].
  - apply below_not_equiv; auto.
  - apply above_not_equiv; auto.
Qed.

Lemma sorted_split_absent v key :
  sorted v = true -> ~ present v key ->
  exists l1 l2, v = l1 ++ l2 /\ Forall (below key) l1 /\ Forall (above key) l2.
Proof.
  intros Hs Hno.
  destruct (sorted_located key v Hs) as [l1 l2 E H1 H2 | l1 p l2 E H1 Hp H2].
  - now exists l1, l2.
  - exfalso. apply Hno. exists p. split; [|exact Hp].
    rewrite E. apply in_or_app. right. now left.
Qed.

Lemma present_dec v key : sorted v = true -> present v key \/ ~ present v key.
Proof.
  intros Hs.
  destruct (sorted_located key v Hs) as [l1 l2 E H1 H2 | l1 p l2 E H1 Hp H2].
  - right. intros (p & Hin & Hp). rewrite E in Hin.
    rewrite (absent_shape_no_equiv key l1 l2 H1 H2 p Hin) in Hp. discriminate.
  - left. exists p. split; [|exact Hp].
    rewrite E. apply in_or_app. right. now left.
Qed.

Lemma sorted_drop_slot l1 p l2 :
  sorted (l1 ++ p :: l2) = true -> sorted (l1 ++ l2) = true.
Proof.
  intros Hs. apply sorted_app in Hs. destruct Hs as (H1 & H2 & H3).
  apply sorted_cons in H2. destruct H2 as [H2 _].
  apply sorted_app. repeat split; auto.
  eapply Forall_impl; [|exact H3].
  intros a Ha. now inversion Ha.
Qed.

Lemma sorted_present_shape v key i p :
  sorted v = true -> nth_error v i = Some p -> eq_key (fst p) key = true ->
  exists l1 l2, v = l1 ++ p :: l2 /\ length l1 = i /\
                Forall (below key) l1 /\ Forall (above key) l2.
Proof.
  intros Hs Hi Hp.
  destruct (sorted_split_present v key i p Hs Hi Hp) as (E & L & F1 & F2).
  now exists (firstn i v), (skipn (S i) v).
Qed.

Lemma present_at v key :
  present v key <-> exists i p, nth_error v i = Some p /\ eq_key (fst p) key = true.
Proof.
  split.
  - intros (p & Hin & Hp). apply In_nth_error in Hin. destruct Hin as [i Hi].
    now exists i, p.
  - intros (i & p & Hi & Hp). exists p. split; [|exact Hp].
    eapply nth_error_In; eassumption.
Qed.

Lemma sorted_open_slot l1 x l2 :
  sorted (l1 ++ l2) = true ->
  Forall (below (fst x)) l1 -> Forall (above (fst x)) l2 ->
  sorted (l1 ++ x :: l2) = true.
Proof.
  intros Hs H1 H2. apply sorted_app in Hs. destruct Hs as (S1 & S2 & S3).
  apply sorted_app. split; [exact S1|]. split.
  - apply sorted_cons. split; [exact S2|exact H2].
  - rewrite Forall_forall in H1, S3. apply Forall_forall. intros a Ha.
    constructor; [apply H1|apply S3]; exact Ha.
Qed.

Lemma sorted_same_keys l1 p x l2 :
  sorted (l1 ++ p :: l2) = true -> sorted (l1 ++ (fst p, x) :: l2) = true.
Proof.
  intros Hs. apply sorted_app in Hs. destruct Hs as (S1 & S2 & S3).
  apply sorted_cons in S2. destruct S2 as [S2 S4].
  apply sorted_app. split; [exact S1|]. split.
  - apply sorted_cons. split; [exact S2|exact S4].
  - eapply Forall_impl; [|exact S3]. intros a Ha.
    inversion Ha; subst. constructor; assumption.
Qed.

Lemma write_ref_slot (l1 : container_type) p l2 x :
  write_ref (l1 ++ p :: l2) (length l1) x = l1 ++ (fst p, x) :: l2.
Proof. induction l1 as [|a l1 IH]; simpl; [reflexivity|now rewrite IH]. Qed.

Lemma read_ref_slot (l1 : container_type) p l2 :
  read_ref (l1 ++ p :: l2) (length l1) = Some (snd p).
Proof. unfold read_ref. now rewrite nth_error_length_app. Qed.

Lemma eq_key_refl k : eq_key k k = true.
Proof. apply eq_key_true. split; apply Compare_irrefl. Qed.

(** ** Insertion of a key already present *)

(** C3: on a sorted container holding, at position [i], an entry whose key
    is equivalent to [k] with value [v0], [insert({k, v1})] and
    [emplace(k, v1)] return the container as it was together with
    [(i, false)]; the value stored for [k] is still [v0]. *)
Theorem insert_existing_key_unmodified v k k0 v0 v1 i :
  sorted v = true ->
  nth_error v i = Some (k0, v0) -> eq_key k0 k = true ->
  insert v (k, v1) = (v, (i, false)) /\
  emplace v (k, v1) = (v, (i, false)) /\
  insert_P v (k, v1) = (v, (i, false)) /\
  read_ref (fst (insert v (k, v1))) i = Some v0.
Proof.
  intros Hs Hi Hk.
  destruct (sorted_present_shape v k i (k0, v0) Hs Hi Hk) as (l1 & l2 & E & L & F1 & F2).
  assert (Hins : insert v (k, v1) = (v, (i, false))).
  { subst v i. now apply (insert_present (k, v1) l1 (k0, v0) l2). }
  unfold insert_P. rewrite emplace_is_insert, Hins.
  repeat split. simpl. unfold read_ref. now rewrite Hi.
Qed.

(** ** Erasure by key *)

(** C5: on a sorted container, when position [i] holds an entry equivalent
    to [k], [erase(k)] closes exactly that slot (the entries after it move
    down by one), returns 1, the size drops by one, [find(k)] is then the
    end sentinel, and [i] was the only position equivalent to [k]; when no
    entry is equivalent to [k], [erase(k)] returns 0 and the container is
    the one it was. *)
Theorem erase_key_spec v k :
  sorted v = true ->
  (forall i p, nth_error v i = Some p -> eq_key (fst p) k = true ->
     erase v k = (firstn i v ++ skipn (S i) v, 1) /\
     size (fst (erase v k)) + 1 = size v /\
     find (fst (erase v k)) k = end_ (fst (erase v k)) /\
     (forall j q, nth_error v j = Some q -> eq_key (fst q) k = true -> j = i)) /\
  (~ present v k -> erase v k = (v, 0) /\ size (fst (erase v k)) = size v).
Proof.
  intros Hs. split.
  - intros i p Hi Hp.
    destruct (sorted_present_shape v k i p Hs Hi Hp) as (l1 & l2 & E & L & F1 & F2).
    subst v i.
    rewrite erase_present by assumption.
    rewrite firstn_length_app.
    replace (S (length l1)) with (length l1 + 1) by lia.
    rewrite skipn_length_app_S. simpl.
    split; [reflexivity|]. split; [|split].
    + unfold size. rewrite !length_app. simpl. lia.
    + now apply find_absent.
    + intros j q Hj Hq.
      destruct (Nat.lt_trichotomy j (length l1)) as [Hlt|[Heq|Hgt]]; [|exact Heq|].
      * apply nth_error_prefix in Hj; [|exact Hlt].
        rewrite Forall_forall in F1.
        rewrite (below_not_equiv k q (F1 q Hj)) in Hq. discriminate.
      * change (l1 ++ p :: l2) with (l1 ++ [p] ++ l2) in Hj.
        rewrite app_assoc in Hj.
        apply nth_error_suffix in Hj; [|rewrite length_app; simpl; lia].
        rewrite Forall_forall in F2.
        rewrite (above_not_equiv k q (F2 q Hj)) in Hq. discriminate.
  - intros Hno.
    destruct (sorted_split_absent v k Hs Hno) as (l1 & l2 & E & F1 & F2).
    subst v. now rewrite erase_absent.
Qed.

(** ** Lookup *)

(** C8: on a sorted container, [lower_bound(k)] is the first position whose
    key is not less than [k] (every entry before it is less than [k], no
    entry from it on is), [upper_bound(k)] is the first position whose key
    is greater than [k], [equal_range(k)] is the pair of the two, the range
    holds no entry or one entry, and it holds one exactly when [find(k)] is
    not the end sentinel, that is when [count(k)] is 1. *)
Theorem bounds_and_equal_range v k :
  sorted v = true ->
  let lb := lower_bound v k in
  let ub := upper_bound v k in
  (lb <= size v /\
   (forall i p, i < lb -> nth_error v i = Some p -> Compare (fst p) k = true) /\
   (forall i p, lb <= i -> nth_error v i = Some p -> Compare (fst p) k = false)) /\
  (ub <= size v /\
   (forall i p, i < ub -> nth_error v i = Some p -> Compare k (fst p) = false) /\
   (forall i p, ub <= i -> nth_error v i = Some p -> Compare k (fst p) = true)) /\
  equal_range v k = (lb, ub) /\
  (ub = lb \/ ub = lb + 1) /\
  (ub = lb + 1 <-> find v k <> end_ v) /\
  (find v k <> end_ v <-> count v k = 1).
Proof.
  intros Hs lb ub. subst lb ub.
  assert (Hcount : find v k <> end_ v <-> count v k = 1).
  { unfold count. destruct (Nat.eqb_spec (find v k) (end_ v)) as [E|E]; simpl.
    - split; [tauto|discriminate].
    - tauto. }
  destruct (sorted_located k v Hs) as [l1 l2 E H1 H2 | l1 p l2 E H1 Hp H2]; subst v.
  - rewrite lower_bound_absent, upper_bound_absent by assumption.
    pose proof (above_not_below k l2 H2) as H2'.
    pose proof (below_not_above k l1 H1) as H1'.
    pose proof H1 as F1. pose proof H2 as F2.
    rewrite Forall_forall in F1, F2, H1', H2'.
    split; [split; [|split] | split; [split; [|split] | split; [|split; [|split]]]].
    + unfold size. rewrite length_app. lia.
    + intros i q Hi Hq. apply F1. eapply nth_error_prefix; eassumption.
    + intros i q Hi Hq. apply H2'. eapply nth_error_suffix; eassumption.
    + unfold size. rewrite length_app. lia.
    + intros i q Hi Hq. apply H1'. eapply nth_error_prefix; eassumption.
    + intros i q Hi Hq. apply F2. eapply nth_error_suffix; eassumption.
    + unfold equal_range.
      now rewrite lower_bound_absent, upper_bound_absent by assumption.
    + now left.
    + rewrite find_absent by assumption. split; [lia|tauto].
    + exact Hcount.
  - rewrite lower_bound_present, upper_bound_present by assumption.
    pose proof (above_not_below k l2 H2) as H2'.
    pose proof (below_not_above k l1 H1) as H1'.
    pose proof Hp as Hp'. apply eq_key_true in Hp'. destruct Hp' as [Hpk Hkp].
    assert (Hlow : Forall (fun q => Compare (fst q) k = false) (p :: l2))
      by (constructor; assumption).
    assert (Hupp : Forall (fun q => Compare k (fst q) = false) (l1 ++ [p])).
    { apply Forall_app. split; [assumption|constructor; [assumption|constructor]]. }
    pose proof H1 as F1. pose proof H2 as F2.
    rewrite Forall_forall in F1, F2, Hlow, Hupp.
    split; [split; [|split] | split; [split; [|split] | split; [|split; [|split]]]].
    + unfold size. rewrite length_app. lia.
    + intros i q Hi Hq. apply F1. eapply nth_error_prefix; eassumption.
    + intros i q Hi Hq. apply Hlow. eapply nth_error_suffix; eassumption.
    + unfold size. rewrite length_app. simpl. lia.
    + intros i q Hi Hq. apply Hupp.
      change (l1 ++ p :: l2) with (l1 ++ [p] ++ l2) in Hq. rewrite app_assoc in Hq.
      eapply nth_error_prefix; [|eassumption]. rewrite length_app. simpl. lia.
    + intros i q Hi Hq. apply F2.
      change (l1 ++ p :: l2) with (l1 ++ [p] ++ l2) in Hq. rewrite app_assoc in Hq.
      eapply nth_error_suffix; [|eassumption]. rewrite length_app. simpl. lia.
    + unfold equal_range.
      now rewrite lower_bound_present, upper_bound_present by assumption.
    + now right.
    + rewrite find_present by assumption.
      unfold end_. rewrite length_app. simpl. split; [lia|reflexivity].
    + exact Hcount.
Qed.
(** ** Element access *)

(** C6: on a sorted container, [operator[](k)] on a present key returns a
    reference to the stored value and changes nothing; on an absent key it
    opens a slot holding [(k, T())] at the sorted position, the container
    stays sorted, the reference reads [T()], and after a store of [x]
    through the reference [find(k)] is that slot and reads [x].  In both
    cases a reference that can be read comes back. *)
Theorem operator_index_spec v k :
  sorted v = true ->
  (forall i p, nth_error v i = Some p -> eq_key (fst p) k = true ->
     operator_index v k = (v, i) /\ read_ref v i = Some (snd p)) /\
  (~ present v k ->
     exists it, it <= size v /\
       operator_index v k = (firstn it v ++ (k, T_default) :: skipn it v, it) /\
       sorted (fst (operator_index v k)) = true /\
       read_ref (fst (operator_index v k)) it = Some T_default /\
       forall x, let v'' := write_ref (fst (operator_index v k)) it x in
         sorted v'' = true /\ find v'' k = it /\ find v'' k <> end_ v'' /\
         read_ref v'' (find v'' k) = Some x) /\
  (exists x, read_ref (fst (operator_index v k)) (snd (operator_index v k)) = Some x).
Proof.
  intros Hs.
  assert (Hpresent : forall i p, nth_error v i = Some p -> eq_key (fst p) k = true ->
            operator_index v k = (v, i) /\ read_ref v i = Some (snd p)).
  { intros i p Hi Hp.
    destruct (sorted_present_shape v k i p Hs Hi Hp) as (l1 & l2 & E & L & F1 & F2).
    subst v i. rewrite operator_index_present by assumption.
    split; [reflexivity|apply read_ref_slot]. }
  assert (Habsent : ~ present v k ->
     exists it, it <= size v /\
       operator_index v k = (firstn it v ++ (k, T_default) :: skipn it v, it) /\
       sorted (fst (operator_index v k)) = true /\
       read_ref (fst (operator_index v k)) it = Some T_default /\
       forall x, let v'' := write_ref (fst (operator_index v k)) it x in
         sorted v'' = true /\ find v'' k = it /\ find v'' k <> end_ v'' /\
         read_ref v'' (find v'' k) = Some x).
  { intros Hno.
    destruct (sorted_split_absent v k Hs Hno) as (l1 & l2 & E & F1 & F2).
    subst v. exists (length l1).
    rewrite operator_index_absent by assumption.
    rewrite firstn_length_app, skipn_length_app. simpl.
    assert (Hs' : sorted (l1 ++ (k, T_default) :: l2) = true)
      by now apply sorted_open_slot.
    split; [unfold size; rewrite length_app; lia|].
    split; [reflexivity|]. split; [exact Hs'|].
    split; [apply (read_ref_slot l1 (k, T_default) l2)|].
    intros x. rewrite write_ref_slot. cbn [fst].
    rewrite !find_present by (try apply eq_key_refl; assumption).
    split; [apply (sorted_same_keys l1 (k, T_default) x l2 Hs')|].
    split; [reflexivity|]. split.
    - unfold end_. rewrite length_app. simpl. lia.
    - apply (read_ref_slot l1 (k, x) l2). }
  split; [exact Hpresent|]. split; [exact Habsent|].
  destruct (present_dec v k Hs) as [Hyes|Hno].
  - apply present_at in Hyes. destruct Hyes as (i & p & Hi & Hp).
    destruct (Hpresent i p Hi Hp) as [-> Hr]. simpl. eauto.
  - destruct (Habsent Hno) as (it & _ & E & _ & Hr & _).
    rewrite E in *. simpl in *. eauto.
Qed.


(** ** What insertion and erasure leave alone *)

(** C10: on a sorted container, an un-hinted [insert] or [operator[]] of an
    absent key opens one slot at some position [it] and every entry that was
    stored is still there, unchanged and in the same order (those before
    [it] at their position, those from [it] on one position later); [erase]
    of a present key closes that entry's slot and every entry with a
    non-equivalent key is still there, unchanged and in the same order. *)
Theorem insert_erase_frame v k :
  sorted v = true ->
  (~ present v k -> forall x,
     exists it, it <= size v /\
       insert v (k, x) = (firstn it v ++ (k, x) :: skipn it v, (it, true)) /\
       operator_index v k = (firstn it v ++ (k, T_default) :: skipn it v, it) /\
       forall v', v' = fst (insert v (k, x)) \/ v' = fst (operator_index v k) ->
         size v' = size v + 1 /\
         forall j, nth_error v' (if j <? it then j else j + 1) = nth_error v j) /\
  (forall i p, nth_error v i = Some p -> eq_key (fst p) k = true ->
     let v' := fst (erase v k) in
     v' = firstn i v ++ skipn (S i) v /\
     v' = filter (fun q : value_type => ne_key (fst q) k) v /\
     size v' + 1 = size v /\
     forall j, nth_error v' j = nth_error v (if j <? i then j else j + 1)).
Proof.
  intros Hs. split.
  - intros Hno x.
    destruct (sorted_split_absent v k Hs Hno) as (l1 & l2 & E & F1 & F2).
    subst v. exists (length l1).
    rewrite (insert_absent (k, x) l1 l2) by assumption.
    rewrite operator_index_absent by assumption.
    rewrite firstn_length_app, skipn_length_app. simpl.
    split; [unfold size; rewrite length_app; lia|].
    split; [reflexivity|]. split; [reflexivity|].
    intros v' [->| ->]; (split; [unfold size; rewrite !length_app; simpl; lia|]);
      intros j; apply nth_error_slot.
  - intros i p Hi Hp.
    destruct (sorted_present_shape v k i p Hs Hi Hp) as (l1 & l2 & E & L & F1 & F2).
    subst v i. rewrite erase_present by assumption. cbn [fst].
    rewrite firstn_length_app.
    replace (S (length l1)) with (length l1 + 1) by lia.
    rewrite skipn_length_app_S.
    split; [reflexivity|]. split; [|split].
    + rewrite filter_app. cbn [filter].
      unfold eq_key in Hp. apply negb_true_iff in Hp. rewrite Hp.
      rewrite !filter_keep_all; [reflexivity| |].
      * eapply Forall_impl; [|exact F2]. intros q Hq.
        unfold above in Hq. unfold ne_key. now rewrite Hq, orb_true_r.
      * eapply Forall_impl; [|exact F1]. intros q Hq.
        unfold below in Hq. unfold ne_key. now rewrite Hq.
    + unfold size. rewrite !length_app. simpl. lia.
    + intros j. symmetry. apply nth_error_slot.
Qed.
(** ** The invariant along sequences of calls *)

Lemma sorted_skipn n v : sorted v = true -> sorted (skipn n v) = true.
Proof.
  intros Hs. rewrite <- (firstn_skipn n v) in Hs.
  apply sorted_app in Hs. tauto.
Qed.

Lemma erase_range_sorted v first last :
  first <= last -> sorted v = true ->
  sorted (fst (erase_range v first last)) = true.
Proof.
  intros Hle Hs. unfold erase_range, Std.vector_erase_range. simpl.
  rewrite <- (firstn_skipn first v) in Hs.
  apply sorted_app in Hs. destruct Hs as (S1 & S2 & S3).
  rewrite (skipn_le_split first last v Hle).
  apply sorted_app. split; [exact S1|]. split.
  - now apply sorted_skipn.
  - eapply Forall_impl; [|exact S3].
    intros a Ha. now apply Forall_skipn_of.
Qed.

Lemma erase_position_sorted v position :
  sorted v = true -> sorted (fst (erase_position v position)) = true.
Proof.
  intros Hs. unfold erase_position, Std.vector_erase.
  apply (erase_range_sorted v position (position + 1)); [lia|exact Hs].
Qed.

Lemma insert_sorted v x : sorted v = true -> sorted (fst (insert v x)) = true.
Proof.
  intros Hs.
  destruct (sorted_located (fst x) v Hs) as [l1 l2 E H1 H2 | l1 p l2 E H1 Hp H2];
    subst v.
  - rewrite insert_absent by assumption. simpl. now apply sorted_open_slot.
  - rewrite insert_present by assumption. exact Hs.
Qed.

Lemma emplace_sorted v val : sorted v = true -> sorted (fst (emplace v val)) = true.
Proof. rewrite emplace_is_insert. apply insert_sorted. Qed.

Lemma insert_range_sorted l :
  forall v, sorted v = true -> sorted (insert_range v l) = true.
Proof.
  induction l as [|x l IH]; intros v Hs; simpl; [exact Hs|].
  apply IH. now apply insert_sorted.
Qed.

Lemma erase_sorted v key : sorted v = true -> sorted (fst (erase v key)) = true.
Proof.
  intros Hs.
  destruct (sorted_located key v Hs) as [l1 l2 E H1 H2 | l1 p l2 E H1 Hp H2];
    subst v.
  - rewrite erase_absent by assumption. exact Hs.
  - rewrite erase_present by assumption. simpl.
    eapply sorted_drop_slot; eassumption.
Qed.

(** ** Hinted insertion *)

(** With a hint that is not the end sentinel the hinted [insert] searches
    like the un-hinted one. *)
Lemma insert_hint_not_end v position x :
  position <> end_ v ->
  insert_hint v position x = (fst (insert v x), fst (snd (insert v x))).
Proof.
  intros Hne. unfold insert_hint, insert.
  apply Nat.eqb_neq in Hne. rewrite Hne.
  destruct (end_or_ne_key v (lower_bound v (fst x)) (fst x)); simpl.
  - reflexivity.
  - unfold begin_. now rewrite Nat.sub_0_r.
Qed.

Lemma emplace_hint_not_end_contents v hint val :
  hint <> end_ v -> fst (emplace_hint v hint val) = fst (insert v val).
Proof.
  intros Hne. unfold emplace_hint, insert.
  apply Nat.eqb_neq in Hne. rewrite Hne.
  now destruct (end_or_ne_key v (lower_bound v (fst val)) (fst val)).
Qed.

Lemma step_sorted v v' : step v v' -> sorted v = true -> sorted v' = true.
Proof.
  intros Hstep Hs. destruct Hstep.
  - now apply insert_sorted.
  - unfold insert_P. now apply emplace_sorted.
  - now apply insert_range_sorted.
  - rewrite insert_hint_not_end by (unfold end_, size in *; lia).
    now apply insert_sorted.
  - now apply emplace_sorted.
  - rewrite emplace_hint_not_end_contents by (unfold end_, size in *; lia).
    now apply insert_sorted.
  - now apply erase_sorted.
  - now apply erase_position_sorted.
  - apply erase_range_sorted; [lia|assumption].
Qed.

Lemma count_zero_or_one v k : count v k = 0 \/ count v k = 1.
Proof. unfold count. destruct (negb (find v k =? end_ v)); auto. Qed.

Lemma count_is_number_of_equivalents v k :
  sorted v = true ->
  count v k = length (filter (fun p : value_type => eq_key (fst p) k) v).
Proof.
  intros Hs. unfold count.
  destruct (sorted_located k v Hs) as [l1 l2 E H1 H2 | l1 p l2 E H1 Hp H2];
    subst v.
  - rewrite find_absent, Nat.eqb_refl by assumption. simpl.
    rewrite filter_drop_all; [reflexivity|].
    apply Forall_forall. intros q Hq.
    eapply absent_shape_no_equiv; eassumption.
  - rewrite find_present by assumption.
    unfold end_. rewrite length_app_cons_neq. simpl.
    rewrite filter_app. cbn [filter]. rewrite Hp.
    rewrite !filter_drop_all; [reflexivity| |].
    + eapply Forall_impl; [|exact H2]. intros q. apply above_not_equiv.
    + eapply Forall_impl; [|exact H1]. intros q. apply below_not_equiv.
Qed.

(** X24: every state reached from the empty container by a finite sequence of
    [step]s is sorted in strictly ascending [Compare] order, and in every
    such state [count(k)] is 0 or 1 for every key [k]: it is the number of
    stored entries equivalent to [k]. *)
Theorem reachable_sorted_unique v :
  reachable v ->
  sorted v = true /\
  forall k, (count v k = 0 \/ count v k = 1) /\
            count v k = length (filter (fun p : value_type => eq_key (fst p) k) v).
Proof.
  intros Hr.
  assert (Hs : sorted v = true).
  { induction Hr as [|v v' _ IH Hstep]; [reflexivity|].
    eapply step_sorted; eassumption. }
  split; [exact Hs|]. intros k. split.
  - apply count_zero_or_one.
  - now apply count_is_number_of_equivalents.
Qed.

(** ** Hinted emplacement *)

(** C9, as the code has it: on a sorted container and with a hint that is
    not the end sentinel, [emplace_hint] inserts nothing when the key is
    present and returns the hint's own position; when the key is absent it
    inserts the entry at its sorted position, as [emplace] does, and returns
    that position, whatever the hint was. *)
Theorem emplace_hint_not_end v hint val :
  sorted v = true -> hint < size v ->
  (present v (fst val) -> emplace_hint v hint val = (v, hint)) /\
  (~ present v (fst val) ->
     emplace_hint v hint val = (fst (emplace v val), lower_bound v (fst val)) /\
     size (fst (emplace_hint v hint val)) = size v + 1 /\
     sorted (fst (emplace_hint v hint val)) = true).
Proof.
  intros Hs Hh.
  assert (Hne : (hint =? end_ v) = false) by (apply Nat.eqb_neq; unfold end_, size in *; lia).
  split.
  - intros Hyes. apply present_at in Hyes. destruct Hyes as (i & p & Hi & Hp).
    destruct (sorted_present_shape v (fst val) i p Hs Hi Hp)
      as (l1 & l2 & E & L & F1 & F2).
    unfold emplace_hint. rewrite Hne. subst v.
    rewrite lower_bound_present, end_or_ne_key_present by assumption.
    unfold begin_. simpl. now rewrite Nat.sub_0_r.
  - intros Hno.
    destruct (sorted_split_absent v (fst val) Hs Hno) as (l1 & l2 & E & F1 & F2).
    rewrite emplace_is_insert.
    unfold emplace_hint. rewrite Hne. subst v.
    rewrite insert_absent by assumption.
    rewrite !lower_bound_absent, end_or_ne_key_absent by assumption.
    unfold Std.vector_insert. rewrite firstn_length_app, skipn_length_app.
    cbn [fst]. split; [reflexivity|]. split.
    + unfold size. rewrite !length_app. simpl. lia.
    + now apply sorted_open_slot.
Qed.
(** ** Lookups by key *)

Lemma lookup_absent_shape key l1 l2 :
  Forall (below key) l1 -> Forall (above key) l2 -> lookup (l1 ++ l2) key = None.
Proof.
  intros H1 H2. unfold lookup.
  now rewrite find_absent, Nat.eqb_refl by assumption.
Qed.

Lemma lookup_present_shape key l1 p l2 :
  Forall (below key) l1 -> eq_key (fst p) key = true -> Forall (above key) l2 ->
  lookup (l1 ++ p :: l2) key = Some p.
Proof.
  intros H1 Hp H2. unfold lookup.
  rewrite find_present by assumption.
  unfold end_. now rewrite length_app_cons_neq, nth_error_length_app.
Qed.

Lemma present_shape_equiv key l1 p l2 q :
  Forall (below key) l1 -> Forall (above key) l2 ->
  In q (l1 ++ p :: l2) -> eq_key (fst q) key = true -> q = p.
Proof.
  intros H1 H2 Hin Hq. rewrite Forall_forall in H1, H2.
  apply in_app_or in Hin. destruct Hin as [Hin|[Hin|Hin]].
  - rewrite (below_not_equiv key q (H1 q Hin)) in Hq. discriminate.
  - now symmetry.
  - rewrite (above_not_equiv key q (H2 q Hin)) in Hq. discriminate.
Qed.

Lemma lookup_Some v key p :
  sorted v = true ->
  (lookup v key = Some p <-> In p v /\ eq_key (fst p) key = true).
Proof.
  intros Hs.
  destruct (sorted_located key v Hs) as [l1 l2 E H1 H2 | l1 p0 l2 E H1 Hp H2];
    subst v.
  - rewrite lookup_absent_shape by assumption. split; [discriminate|].
    intros [Hin Hq].
    rewrite (absent_shape_no_equiv key l1 l2 H1 H2 p Hin) in Hq. discriminate.
  - rewrite lookup_present_shape by assumption. split.
    + intros E. inversion E; subst p0. split; [|exact Hp].
      apply in_or_app. right. now left.
    + intros [Hin Hq]. f_equal. symmetry.
      eapply present_shape_equiv; eassumption.
Qed.

Lemma lookup_None v key :
  sorted v = true -> (lookup v key = None <-> ~ present v key).
Proof.
  intros Hs. split.
  - intros Hn (p & Hin & Hp).
    assert (E : lookup v key = Some p) by (apply lookup_Some; auto).
    congruence.
  - intros Hno. destruct (lookup v key) as [p|] eqn:E; [|reflexivity].
    exfalso. apply Hno. exists p. now apply lookup_Some.
Qed.

Lemma equiv_present v k k' :
  eq_key k k' = true -> present v k -> present v k'.
Proof.
  intros E (p & Hin & Hp). exists p. split; [exact Hin|].
  eapply Compare_equiv_trans; eassumption.
Qed.

Lemma In_insert v x q :
  sorted v = true ->
  (In q (fst (insert v x)) <-> In q v \/ (q = x /\ ~ present v (fst x))).
Proof.
  intros Hs.
  destruct (sorted_located (fst x) v Hs) as [l1 l2 E H1 H2 | l1 p l2 E H1 Hp H2];
    subst v.
  - rewrite insert_absent by assumption. cbn [fst].
    assert (Hno : ~ present (l1 ++ l2) (fst x)).
    { intros (p & Hin & Hp).
      rewrite (absent_shape_no_equiv (fst x) l1 l2 H1 H2 p Hin) in Hp. discriminate. }
    rewrite !in_app_iff. simpl. split.
    + intros [H|[H|H]]; [left; now left|right; now split|left; now right].
    + intros [[H|H]|[H _]]; [now left|right; now right|right; now left].
  - rewrite insert_present by assumption. cbn [fst]. split; [auto|].
    intros [H|[_ Hno]]; [exact H|].
    exfalso. apply Hno. exists p. split; [|exact Hp].
    apply in_or_app. right. now left.
Qed.

Lemma In_erase v k q :
  sorted v = true ->
  (In q (fst (erase v k)) <-> In q v /\ eq_key (fst q) k = false).
Proof.
  intros Hs.
  destruct (sorted_located k v Hs) as [l1 l2 E H1 H2 | l1 p l2 E H1 Hp H2];
    subst v.
  - rewrite erase_absent by assumption. cbn [fst]. split.
    + intros Hin. split; [exact Hin|].
      eapply absent_shape_no_equiv; eassumption.
    + now intros [Hin _].
  - rewrite erase_present by assumption. cbn [fst]. split.
    + intros Hin. split.
      * apply in_app_or in Hin. apply in_or_app.
        destruct Hin as [Hin|Hin]; [now left|right; now right].
      * eapply absent_shape_no_equiv; eassumption.
    + intros [Hin Hq]. apply in_app_or in Hin. apply in_or_app.
      destruct Hin as [Hin|[Hin|Hin]]; [now left| |now right].
      subst q. congruence.
Qed.

Lemma lookup_insert v x k :
  sorted v = true ->
  lookup (fst (insert v x)) k =
  match lookup v k with
  | Some p => Some p
  | None => if eq_key (fst x) k then Some x else None
  end.
Proof.
  intros Hs. pose proof (insert_sorted v x Hs) as Hs'.
  destruct (lookup v k) as [p|] eqn:E.
  - apply lookup_Some in E; [|exact Hs]. destruct E as [Hin Hp].
    apply lookup_Some; [exact Hs'|]. split; [|exact Hp].
    apply In_insert; auto.
  - apply lookup_None in E; [|exact Hs].
    destruct (eq_key (fst x) k) eqn:Hx.
    + apply lookup_Some; [exact Hs'|]. split; [|exact Hx].
      apply In_insert; [exact Hs|]. right. split; [reflexivity|].
      intros Hyes. apply E. eapply equiv_present; eassumption.
    + apply lookup_None; [exact Hs'|].
      intros (q & Hin & Hq). apply In_insert in Hin; [|exact Hs].
      destruct Hin as [Hin|[-> _]]; [|congruence].
      apply E. now exists q.
Qed.

Lemma lookup_erase v k' k :
  sorted v = true ->
  lookup (fst (erase v k')) k = if eq_key k' k then None else lookup v k.
Proof.
  intros Hs. pose proof (erase_sorted v k' Hs) as Hs'.
  destruct (eq_key k' k) eqn:Hk.
  - apply lookup_None; [exact Hs'|].
    intros (q & Hin & Hq). apply In_erase in Hin; [|exact Hs].
    destruct Hin as [_ Hne].
    rewrite eq_key_sym in Hk.
    rewrite (Compare_equiv_trans _ _ _ Hq Hk) in Hne. discriminate.
  - destruct (lookup v k) as [p|] eqn:E.
    + apply lookup_Some in E; [|exact Hs]. destruct E as [Hin Hp].
      apply lookup_Some; [exact Hs'|]. split; [|exact Hp].
      apply In_erase; [exact Hs|]. split; [exact Hin|].
      destruct (eq_key (fst p) k') eqn:Hp'; [|reflexivity].
      rewrite eq_key_sym in Hp'.
      rewrite (Compare_equiv_trans _ _ _ Hp' Hp) in Hk. discriminate.
    + apply lookup_None in E; [|exact Hs].
      apply lookup_None; [exact Hs'|].
      intros (q & Hin & Hq). apply In_erase in Hin; [|exact Hs].
      apply E. exists q. now split.
Qed.
(** X1: on a sorted container [find(k)] is not the end sentinel exactly when
    some stored key is equivalent to [k]; the entry it points at is the one
    stored entry with an equivalent key; and when it is not the end it is
    the lower bound of [k], a position inside the container. *)
Theorem find_spec v k :
  sorted v = true ->
  (find v k <> end_ v <-> present v k) /\
  (forall p, lookup v k = Some p <-> In p v /\ eq_key (fst p) k = true) /\
  (find v k <> end_ v -> find v k = lower_bound v k /\ find v k < size v).
Proof.
  intros Hs. split; [|split].
  - destruct (sorted_located k v Hs) as [l1 l2 E H1 H2 | l1 p l2 E H1 Hp H2];
      subst v.
    + rewrite find_absent by assumption. split; [congruence|].
      intros (p & Hin & Hp).
      rewrite (absent_shape_no_equiv k l1 l2 H1 H2 p Hin) in Hp. discriminate.
    + rewrite find_present by assumption. split.
      * intros _. exists p. split; [|exact Hp]. apply in_or_app. right. now left.
      * intros _. unfold end_. rewrite length_app. simpl. lia.
  - intros p. now apply lookup_Some.
  - destruct (sorted_located k v Hs) as [l1 l2 E H1 H2 | l1 p l2 E H1 Hp H2];
      subst v.
    + rewrite find_absent by assumption. congruence.
    + rewrite find_present, lower_bound_present by assumption.
      intros _. split; [reflexivity|]. unfold size. rewrite length_app. simpl. lia.
Qed.

(** X2: on a sorted container, after [insert(x)] the key of [x] is found at
    the returned position.  The flag is [true] exactly when no equivalent
    key was stored; then [x] itself is what the key maps to and the size
    grew by one.  When the flag is [false] the container is the one it was
    and the key maps to what it mapped to. *)
Theorem insert_then_find v x :
  sorted v = true ->
  find (fst (insert v x)) (fst x) = fst (snd (insert v x)) /\
  fst (snd (insert v x)) < size (fst (insert v x)) /\
  (snd (snd (insert v x)) = true <-> ~ present v (fst x)) /\
  (snd (snd (insert v x)) = true ->
     lookup (fst (insert v x)) (fst x) = Some x /\
     size (fst (insert v x)) = size v + 1) /\
  (snd (snd (insert v x)) = false ->
     fst (insert v x) = v /\ exists p, lookup v (fst x) = Some p).
Proof.
  intros Hs.
  destruct (sorted_located (fst x) v Hs) as [l1 l2 E H1 H2 | l1 p l2 E H1 Hp H2];
    subst v.
  - rewrite insert_absent by assumption. cbn [fst snd].
    assert (Hno : ~ present (l1 ++ l2) (fst x)).
    { intros (p & Hin & Hp).
      rewrite (absent_shape_no_equiv (fst x) l1 l2 H1 H2 p Hin) in Hp. discriminate. }
    split; [apply find_present; auto; apply eq_key_refl|].
    split; [unfold size; rewrite length_app; simpl; lia|].
    split; [split; auto|].
    split; [|discriminate].
    intros _. split.
    + apply lookup_present_shape; auto. apply eq_key_refl.
    + unfold size. rewrite !length_app. simpl. lia.
  - rewrite insert_present by assumption. cbn [fst snd].
    split; [now apply find_present|].
    split; [unfold size; rewrite length_app; simpl; lia|].
    split; [split; [discriminate|]|].
    { intros Hno. exfalso. apply Hno. exists p. split; [|exact Hp].
      apply in_or_app. right. now left. }
    split; [discriminate|].
    intros _. split; [reflexivity|]. exists p. now apply lookup_present_shape.
Qed.

(** X3: on a sorted container that holds no key equivalent to [k],
    [insert({k, x})] followed by [erase(k)] gives back the container as it
    was, and the [erase] returns 1. *)
Theorem insert_erase_round_trip v k x :
  sorted v = true -> ~ present v k ->
  erase (fst (insert v (k, x))) k = (v, 1).
Proof.
  intros Hs Hno.
  destruct (sorted_split_absent v k Hs Hno) as (l1 & l2 & E & F1 & F2). subst v.
  rewrite (insert_absent (k, x) l1 l2) by assumption. cbn [fst].
  apply erase_present; auto. apply eq_key_refl.
Qed.

(** X4: on a sorted container, erasing the key of a stored entry and
    inserting that entry again gives back the container as it was; the
    [erase] returns 1 and the [insert] reports an insertion. *)
Theorem erase_insert_round_trip v p :
  sorted v = true -> In p v ->
  snd (erase v (fst p)) = 1 /\
  fst (insert (fst (erase v (fst p))) p) = v /\
  snd (snd (insert (fst (erase v (fst p))) p)) = true.
Proof.
  intros Hs Hin. apply In_nth_error in Hin. destruct Hin as [i Hi].
  destruct (sorted_present_shape v (fst p) i p Hs Hi (eq_key_refl (fst p)))
    as (l1 & l2 & E & L & F1 & F2).
  subst v. rewrite erase_present by (auto using eq_key_refl). cbn [fst snd].
  rewrite insert_absent by assumption. auto.
Qed.

(** X5: on a sorted container, what a key maps to after [insert(x)]: a key
    that was mapped keeps its entry (also when it is equivalent to the key
    of [x]: the stored entry wins); a key that was not mapped maps to [x] if
    it is equivalent to the key of [x], and stays unmapped otherwise. *)
Theorem lookup_after_insert v x k :
  sorted v = true ->
  lookup (fst (insert v x)) k =
  match lookup v k with
  | Some p => Some p
  | None => if eq_key (fst x) k then Some x else None
  end.
Proof. apply lookup_insert. Qed.

(** X6: on a sorted container, after [erase(k')] a key equivalent to [k']
    is not mapped, and every other key maps to what it mapped to. *)
Theorem lookup_after_erase v k' k :
  sorted v = true ->
  lookup (fst (erase v k')) k = if eq_key k' k then None else lookup v k.
Proof. apply lookup_erase. Qed.

Lemma insert_range_lookup l :
  forall v k, sorted v = true ->
    lookup (insert_range v l) k =
    match lookup v k with
    | Some p => Some p
    | None => List.find (fun q : value_type => eq_key (fst q) k) l
    end.
Proof.
  induction l as [|x l IH]; intros v k Hs; simpl.
  - now destruct (lookup v k).
  - rewrite IH by now apply insert_sorted.
    rewrite lookup_insert by assumption.
    destruct (lookup v k); [reflexivity|].
    now destruct (eq_key (fst x) k).
Qed.

Lemma insert_range_members l :
  forall v q, sorted v = true -> In q (insert_range v l) -> In q v \/ In q l.
Proof.
  induction l as [|x l IH]; intros v q Hs Hin; simpl in *; [now left|].
  apply IH in Hin; [|now apply insert_sorted].
  destruct Hin as [Hin|Hin]; [|right; now right].
  apply In_insert in Hin; [|exact Hs].
  destruct Hin as [Hin|[-> _]]; [now left|right; now left].
Qed.

(** X7: [insert(first, last)] on a sorted container leaves it sorted, stores
    only entries that were stored or come from the range, and a key maps
    afterwards to the entry it mapped to before, or else to the first entry
    of the range with an equivalent key (the first occurrence wins), or
    else to nothing. *)
Theorem insert_range_first_wins v l :
  sorted v = true ->
  sorted (insert_range v l) = true /\
  (forall q, In q (insert_range v l) -> In q v \/ In q l) /\
  (forall k,
     lookup (insert_range v l) k =
     match lookup v k with
     | Some p => Some p
     | None => List.find (fun q : value_type => eq_key (fst q) k) l
     end).
Proof.
  intros Hs. split; [now apply insert_range_sorted|]. split.
  - intros q. now apply insert_range_members.
  - intros k. now apply insert_range_lookup.
Qed.

Lemma insert_range_ascending l :
  forall v, sorted (v ++ l) = true -> insert_range v l = v ++ l.
Proof.
  induction l as [|x l IH]; intros v Hs; simpl.
  - now rewrite app_nil_r.
  - assert (Hx : insert v x = (v ++ [x], (length v, true))).
    { pose proof Hs as Hs0. apply sorted_app in Hs0. destruct Hs0 as (_ & _ & H3).
      rewrite <- (app_nil_r v) at 1.
      apply insert_absent; [|constructor].
      eapply Forall_impl; [|exact H3]. intros a Ha. now inversion Ha. }
    rewrite Hx. cbn [fst].
    rewrite IH; rewrite <- app_assoc; [reflexivity|exact Hs].
Qed.

(** X8: when the input range is already in strictly ascending key order,
    the range constructor, the initializer-list constructor and the
    initializer-list assignment build the container that [insert(first,
    last)] builds from the empty one, and it is sorted. *)
Theorem range_constructor_on_ascending_input l v0 :
  sorted l = true ->
  stdmap_range l = insert_range stdmap_default l /\
  stdmap_initializer_list l = insert_range stdmap_default l /\
  assign_initializer_list v0 l = insert_range stdmap_default l /\
  sorted (stdmap_range l) = true.
Proof.
  intros Hs.
  assert (E : insert_range stdmap_default l = l)
    by (apply (insert_range_ascending l []); exact Hs).
  unfold stdmap_initializer_list, stdmap_range, assign_initializer_list.
  rewrite E. auto.
Qed.
(** ** Erasure by position *)

Lemma find_end_absent v k :
  sorted v = true -> (find v k = end_ v <-> ~ present v k).
Proof.
  intros Hs.
  destruct (sorted_located k v Hs) as [l1 l2 E H1 H2 | l1 p l2 E H1 Hp H2];
    subst v.
  - rewrite find_absent by assumption. split; [|reflexivity].
    intros _ (p & Hin & Hp).
    rewrite (absent_shape_no_equiv k l1 l2 H1 H2 p Hin) in Hp. discriminate.
  - rewrite find_present by assumption. split.
    + unfold end_. rewrite length_app. simpl. lia.
    + intros Hno. exfalso. apply Hno. exists p. split; [|exact Hp].
      apply in_or_app. right. now left.
Qed.

Lemma three_way_cut (v : container_type) first last :
  first <= last ->
  v = firstn first v ++ firstn (last - first) (skipn first v) ++ skipn last v.
Proof.
  intros Hle.
  rewrite (skipn_le_split first last v Hle), firstn_skipn, firstn_skipn.
  reflexivity.
Qed.

(** X9: [erase(first, last)] with [first <= last <= end()] on a sorted
    container returns the position [first], leaves the container sorted and
    shorter by [last - first], keeps every entry outside the range in its
    order (those before [first] in place, those from [last] on moved down),
    and no key of an erased entry is found afterwards. *)
Theorem erase_range_spec v first last :
  sorted v = true -> first <= last <= size v ->
  snd (erase_range v first last) = first /\
  sorted (fst (erase_range v first last)) = true /\
  size (fst (erase_range v first last)) + (last - first) = size v /\
  (forall j, nth_error (fst (erase_range v first last)) j =
             nth_error v (if j <? first then j else j + (last - first))) /\
  (forall i p, first <= i < last -> nth_error v i = Some p ->
     find (fst (erase_range v first last)) (fst p) =
     end_ (fst (erase_range v first last))).
Proof.
  intros Hs [Hle Hlast]. unfold size in *.
  pose proof (erase_range_sorted v first last Hle Hs) as Hs'.
  split; [reflexivity|]. split; [exact Hs'|].
  unfold erase_range, Std.vector_erase_range in *. cbn [fst] in *.
  assert (L1 : length (firstn first v) = first) by (rewrite length_firstn; lia).
  split; [|split].
  - rewrite length_app, L1, length_skipn. lia.
  - intros j. destruct (Nat.ltb_spec j first) as [Hj|Hj].
    + rewrite nth_error_app1 by lia. rewrite nth_error_firstn.
      apply Nat.ltb_lt in Hj. now rewrite Hj.
    + rewrite nth_error_app2 by lia. rewrite L1, nth_error_skipn.
      f_equal. lia.
  - intros i p Hi Hp. apply find_end_absent; [exact Hs'|].
    intros (q & Hin & Hq).
    assert (Hm : In p (firstn (last - first) (skipn first v))).
    { apply (nth_error_In _ (i - first)).
      rewrite nth_error_firstn, nth_error_skipn.
      replace (first + (i - first)) with i by lia.
      destruct (Nat.ltb_spec (i - first) (last - first)); [exact Hp|lia]. }
    rewrite (three_way_cut v first last Hle) in Hs.
    apply sorted_app in Hs. destruct Hs as (_ & S2 & S3).
    apply sorted_app in S2. destruct S2 as (_ & _ & S4).
    rewrite Forall_forall in S3, S4.
    apply in_app_or in Hin. destruct Hin as [Hin|Hin].
    + specialize (S3 q Hin). rewrite Forall_forall in S3.
      assert (Hqp : precedes q p) by (apply S3; apply in_or_app; now left).
      assert (E : eq_key (fst q) (fst p) = false) by (apply eq_key_false; now left).
      congruence.
    + specialize (S4 p Hm). rewrite Forall_forall in S4.
      assert (Hpq : precedes p q) by (apply S4; exact Hin).
      assert (E : eq_key (fst q) (fst p) = false) by (apply eq_key_false; now right).
      congruence.
Qed.

(** ** Hints *)

Lemma vector_insert_at_end (v : container_type) x :
  Std.vector_insert v (length v) x = (v ++ [x], length v).
Proof.
  unfold Std.vector_insert. now rewrite firstn_all, skipn_all.
Qed.

Lemma insert_hint_end_appends v x :
  insert_hint v (end_ v) x = (v ++ [x], size v).
Proof.
  unfold insert_hint, end_or_ne_key, end_, size.
  rewrite !Nat.eqb_refl. simpl. apply vector_insert_at_end.
Qed.

Lemma emplace_hint_end_appends v x :
  emplace_hint v (end_ v) x = (v ++ [x], size v).
Proof.
  unfold emplace_hint, end_or_ne_key, end_, size.
  rewrite !Nat.eqb_refl. simpl. apply vector_insert_at_end.
Qed.

Lemma valid_hint_end_empty x : valid_hint [] (end_ []) x = true.
Proof. reflexivity. Qed.

Lemma valid_hint_end_last (l : container_type) a x :
  valid_hint (l ++ [a]) (end_ (l ++ [a])) x = _compare_value a x.
Proof.
  unfold valid_hint, end_, begin_.
  rewrite Nat.eqb_refl, length_app. simpl.
  replace (length l + 1 - 1) with (length l) by lia.
  replace (length l + 1 =? 0) with false by (symmetry; apply Nat.eqb_neq; lia).
  rewrite nth_error_length_app. simpl. now rewrite andb_true_r.
Qed.

Lemma sorted_append (v : container_type) x :
  sorted v = true -> sorted (v ++ [x]) = valid_hint v (end_ v) x.
Proof.
  intros Hs. destruct v as [|b v'] using rev_ind; [reflexivity|].
  clear IHv'. rewrite valid_hint_end_last.
  destruct (_compare_value b x) eqn:Hbx.
  - pose proof Hs as Hs0. apply sorted_app in Hs0. destruct Hs0 as (_ & _ & H3).
    apply sorted_app. split; [exact Hs|]. split; [reflexivity|].
    apply Forall_app. split.
    + eapply Forall_impl; [|exact H3]. intros a Ha.
      inversion Ha as [|? ? Hab _]; subst. constructor; [|constructor].
      unfold precedes, _compare_value in *. eauto.
    + constructor; [|constructor]. constructor; [exact Hbx|constructor].
  - destruct (sorted ((v' ++ [b]) ++ [x])) eqn:Hs2; [|reflexivity].
    apply sorted_app in Hs2. destruct Hs2 as (_ & _ & H3).
    apply Forall_app in H3. destruct H3 as [_ H3].
    inversion H3 as [|? ? Hb _]; subst. inversion Hb as [|? ? Hbx' _]; subst.
    unfold precedes in Hbx'. congruence.
Qed.

(** X10: with the end sentinel as hint, the hinted [insert] and
    [emplace_hint] always append the entry and return the old size.  On a
    sorted container the result is sorted exactly when the hint is valid
    (the container is empty or its last key is before the new key), and
    then it is what the un-hinted [insert] builds. *)
Theorem end_hint_appends v x :
  sorted v = true ->
  insert_hint v (end_ v) x = (v ++ [x], size v) /\
  emplace_hint v (end_ v) x = (v ++ [x], size v) /\
  sorted (fst (insert_hint v (end_ v) x)) = valid_hint v (end_ v) x /\
  (valid_hint v (end_ v) x = true -> insert v x = (v ++ [x], (size v, true))).
Proof.
  intros Hs.
  split; [apply insert_hint_end_appends|].
  split; [apply emplace_hint_end_appends|].
  rewrite insert_hint_end_appends. cbn [fst].
  split; [now apply sorted_append|].
  intros Hv. rewrite <- sorted_append in Hv by assumption.
  apply sorted_app in Hv. destruct Hv as (_ & _ & H3).
  rewrite <- (app_nil_r v) at 1. unfold size.
  apply insert_absent; [|constructor].
  eapply Forall_impl; [|exact H3]. intros a Ha. now inversion Ha.
Qed.

(** X11: with any hint other than the end sentinel, on every container
    (sorted or not), the hinted [insert] returns the container and the
    position the un-hinted [insert] returns, and [emplace_hint] builds the
    container [emplace] builds. *)
Theorem inner_hint_is_ignored v position x :
  position < size v ->
  insert_hint v position x = (fst (insert v x), fst (snd (insert v x))) /\
  fst (emplace_hint v position x) = fst (emplace v x).
Proof.
  intros Hp.
  assert (Hne : position <> end_ v) by (unfold end_, size in *; lia).
  split; [now apply insert_hint_not_end|].
  rewrite emplace_is_insert. now apply emplace_hint_not_end_contents.
Qed.

(** X12: [emplace] searches with the entry comparator and [insert] with the
    key comparator; on every container they return the same result. *)
Theorem emplace_agrees_with_insert v val : emplace v val = insert v val.
Proof. apply emplace_is_insert. Qed.
(** ** Positions handed out *)

Lemma lower_bound_loop_range {A B : Type} (v : list A) (val : B) (comp : A -> B -> bool) :
  forall fuel first len,
    first <= Std.lower_bound_loop fuel v val comp first len <= first + len.
Proof.
  induction fuel as [|fuel IH]; intros first len; simpl; [lia|].
  destruct (Nat.eqb_spec len 0) as [->|Hne]; [lia|].
  pose proof (div2_lt_pos len Hne) as Hhalf.
  generalize dependent (Nat.div2 len); intros half Hhalf.
  destruct (nth_error v (first + half)) as [m|]; [|lia].
  destruct (comp m val).
  - specialize (IH (first + half + 1) (len - half - 1)). lia.
  - specialize (IH first half). lia.
Qed.

Lemma upper_bound_loop_range {A B : Type} (v : list A) (val : B) (comp : B -> A -> bool) :
  forall fuel first len,
    first <= Std.upper_bound_loop fuel v val comp first len <= first + len.
Proof.
  induction fuel as [|fuel IH]; intros first len; simpl; [lia|].
  destruct (Nat.eqb_spec len 0) as [->|Hne]; [lia|].
  pose proof (div2_lt_pos len Hne) as Hhalf.
  generalize dependent (Nat.div2 len); intros half Hhalf.
  destruct (nth_error v (first + half)) as [m|]; [|lia].
  destruct (comp val m).
  - specialize (IH first half). lia.
  - specialize (IH (first + half + 1) (len - half - 1)). lia.
Qed.

Lemma lower_bound_le_size v k : lower_bound v k <= size v.
Proof.
  unfold lower_bound, lower_bound_impl, Std.lower_bound, size.
  pose proof (lower_bound_loop_range v k (fun pair k0 => Compare (fst pair) k0)
                (length v) 0 (length v)). lia.
Qed.

Lemma guarded_position v it key :
  end_or_ne_key v it key = false ->
  exists p, nth_error v it = Some p /\ eq_key (fst p) key = true.
Proof.
  unfold end_or_ne_key. intros H. apply orb_false_iff in H. destruct H as [_ H].
  destruct (nth_error v it) as [p|]; [|discriminate].
  exists p. split; [reflexivity|]. unfold eq_key. now rewrite H.
Qed.

Lemma vector_insert_slot (v : container_type) it x :
  it <= length v ->
  nth_error (fst (Std.vector_insert v it x)) (snd (Std.vector_insert v it x)) = Some x.
Proof.
  intros Hit. unfold Std.vector_insert. cbn [fst snd].
  assert (L : length (firstn it v) = it) by (rewrite length_firstn; lia).
  rewrite nth_error_app2 by lia. rewrite L, Nat.sub_diag. reflexivity.
Qed.

(** X13: on every container, sorted or not, the searches return positions
    between [begin()] and [end()], and [insert] and [operator[]] return a
    position that holds an entry whose key is equivalent to the key asked
    for: no call hands out a position past the end. *)
Theorem positions_stay_in_range v k x :
  lower_bound v k <= size v /\
  upper_bound v k <= size v /\
  find v k <= size v /\
  (exists p, nth_error (fst (insert v x)) (fst (snd (insert v x))) = Some p /\
             eq_key (fst p) (fst x) = true) /\
  (exists p, nth_error (fst (operator_index v k)) (snd (operator_index v k)) = Some p /\
             eq_key (fst p) k = true).
Proof.
  split; [apply lower_bound_le_size|]. split; [|split; [|split]].
  - unfold upper_bound, upper_bound_impl, Std.upper_bound, size.
    pose proof (upper_bound_loop_range v k (fun k0 pair => Compare k0 (fst pair))
                  (length v) 0 (length v)). lia.
  - unfold find.
    change (Std.lower_bound v k (fun pair k0 => Compare (fst pair) k0))
      with (lower_bound v k).
    destruct (not_end_and_eq_key v (lower_bound v k) k).
    + apply lower_bound_le_size.
    + unfold end_, size. lia.
  - unfold insert.
    destruct (end_or_ne_key v (lower_bound v (fst x)) (fst x)) eqn:G.
    + exists x. split; [|apply eq_key_refl].
      pose proof (vector_insert_slot v (lower_bound v (fst x)) x
                    (lower_bound_le_size v (fst x))) as H.
      destruct (Std.vector_insert v (lower_bound v (fst x)) x) as [v' it'].
      exact H.
    + cbn [fst snd]. now apply guarded_position.
  - unfold operator_index.
    destruct (end_or_ne_key v (lower_bound v k) k) eqn:G.
    + exists (k, T_default). split; [|apply eq_key_refl].
      apply vector_insert_slot. apply lower_bound_le_size.
    + cbn [fst snd]. now apply guarded_position.
Qed.

(** X14: on a sorted container [count(k)] is the number of stored entries
    whose key is equivalent to [k]. *)
Theorem count_counts_equivalents v k :
  sorted v = true ->
  count v k = length (filter (fun p : value_type => eq_key (fst p) k) v).
Proof. apply count_is_number_of_equivalents. Qed.

(** ** Calls one after the other *)

(** X15: on a sorted container, [at(k)] right after [operator[](k)] does
    not fail: it returns the reference [operator[]] returned, on the
    container [operator[]] left. *)
Theorem at_after_operator_index v k :
  sorted v = true ->
  at_ (fst (operator_index v k)) k =
    (fst (operator_index v k), Returns (snd (operator_index v k))).
Proof.
  intros Hs.
  destruct (sorted_located k v Hs) as [l1 l2 E H1 H2 | l1 p l2 E H1 Hp H2];
    subst v.
  - rewrite operator_index_absent by assumption. cbn [fst snd].
    unfold at_, at_impl.
    rewrite find_present, not_end_and_eq_key_present;
      auto using eq_key_refl.
  - rewrite operator_index_present by assumption. cbn [fst snd].
    unfold at_, at_impl.
    now rewrite find_present, not_end_and_eq_key_present by assumption.
Qed.

Lemma Forall_below_equiv k k' l :
  eq_key k k' = true -> Forall (below k) l -> Forall (below k') l.
Proof.
  intros E. apply Forall_impl. intros a Ha. unfold below in *.
  eapply below_equiv; eassumption.
Qed.

Lemma Forall_above_equiv k k' l :
  eq_key k k' = true -> Forall (above k) l -> Forall (above k') l.
Proof.
  intros E. apply Forall_impl. intros a Ha. unfold above in *.
  eapply above_equiv; eassumption.
Qed.

(** X16: on a sorted container a second call with an equivalent key changes
    nothing: a second [insert] returns the position of the first with the
    flag [false], a second [operator[]] returns the same reference, and a
    second [erase] returns 0. *)
Theorem second_call_changes_nothing v x x' :
  sorted v = true -> eq_key (fst x) (fst x') = true ->
  insert (fst (insert v x)) x' =
    (fst (insert v x), (fst (snd (insert v x)), false)) /\
  operator_index (fst (operator_index v (fst x))) (fst x') =
    operator_index v (fst x) /\
  erase (fst (erase v (fst x))) (fst x') = (fst (erase v (fst x)), 0).
Proof.
  intros Hs E.
  destruct (sorted_located (fst x) v Hs) as [l1 l2 Ev H1 H2 | l1 p l2 Ev H1 Hp H2];
    subst v.
  - pose proof (Forall_below_equiv _ _ l1 E H1) as H1'.
    pose proof (Forall_above_equiv _ _ l2 E H2) as H2'.
    rewrite insert_absent, operator_index_absent, erase_absent by assumption.
    cbn [fst snd].
    split; [now apply insert_present|].
    split; [now apply operator_index_present|now apply erase_absent].
  - pose proof (Forall_below_equiv _ _ l1 E H1) as H1'.
    pose proof (Forall_above_equiv _ _ l2 E H2) as H2'.
    assert (Hp' : eq_key (fst p) (fst x') = true)
      by (eapply Compare_equiv_trans; eassumption).
    rewrite insert_present, operator_index_present, erase_present by assumption.
    cbn [fst snd].
    split; [now apply insert_present|].
    split; [now apply operator_index_present|now apply erase_absent].
Qed.
(** ** Order of iteration and of insertion *)

Lemma sorted_pairwise v :
  sorted v = true ->
  forall i j p q, i < j -> nth_error v i = Some p -> nth_error v j = Some q ->
                  Compare (fst p) (fst q) = true.
Proof.
  induction v as [|a v IH]; intros Hs i j p q Hij Hp Hq.
  - destruct i; discriminate.
  - apply sorted_cons in Hs. destruct Hs as [Hs Ha].
    destruct j as [|j]; [lia|]. simpl in Hq.
    destruct i as [|i]; simpl in Hp.
    + inversion Hp; subst a. rewrite Forall_forall in Ha.
      apply Ha. eapply nth_error_In; eassumption.
    + apply (IH Hs i j); auto. lia.
Qed.

(** X21: on a sorted container a traversal from [begin()] to [end()]
    visits the keys in strictly ascending order, any earlier key being
    before any later one, and a traversal from [rbegin()] to [rend()] visits
    them in strictly descending order. *)
Theorem iteration_order v :
  sorted v = true ->
  (forall i j p q, i < j ->
     nth_error (iteration v) i = Some p -> nth_error (iteration v) j = Some q ->
     Compare (fst p) (fst q) = true /\ eq_key (fst p) (fst q) = false) /\
  (forall i j p q, i < j ->
     nth_error (reverse_iteration v) i = Some p ->
     nth_error (reverse_iteration v) j = Some q ->
     Compare (fst q) (fst p) = true /\ eq_key (fst p) (fst q) = false).
Proof.
  intros Hs. unfold iteration, reverse_iteration. split.
  - intros i j p q Hij Hp Hq.
    pose proof (sorted_pairwise v Hs i j p q Hij Hp Hq) as H.
    split; [exact H|]. apply eq_key_false. now left.
  - intros i j p q Hij Hp Hq.
    rewrite nth_error_rev in Hp, Hq.
    destruct (Nat.ltb_spec i (length v)) as [Hi|Hi]; [|discriminate].
    destruct (Nat.ltb_spec j (length v)) as [Hj|Hj]; [|discriminate].
    assert (Hqp : Compare (fst q) (fst p) = true).
    { apply (sorted_pairwise v Hs (length v - S j) (length v - S i)); auto. lia. }
    split; [exact Hqp|]. apply eq_key_false. now right.
Qed.

Lemma In_lookup v p :
  sorted v = true -> (In p v <-> lookup v (fst p) = Some p).
Proof.
  intros Hs. rewrite lookup_Some by assumption. split.
  - intros H. split; [exact H|apply eq_key_refl].
  - now intros [H _].
Qed.

Lemma sorted_same_members a :
  forall b, sorted a = true -> sorted b = true ->
            (forall p, In p a <-> In p b) -> a = b.
Proof.
  induction a as [|x a IH]; intros [|y b] Ha Hb Hm.
  - reflexivity.
  - exfalso. apply (Hm y). now left.
  - exfalso. apply (Hm x). now left.
  - apply sorted_cons in Ha. destruct Ha as [Ha Hx].
    apply sorted_cons in Hb. destruct Hb as [Hb Hy].
    rewrite Forall_forall in Hx, Hy.
    assert (Hirr : forall z : value_type, ~ precedes z z).
    { intros z Hz. unfold precedes, _compare_value in Hz.
      rewrite Compare_irrefl in Hz. discriminate. }
    assert (E : x = y).
    { destruct (proj1 (Hm x) (or_introl eq_refl)) as [E|Hxb]; [now symmetry|].
      destruct (proj2 (Hm y) (or_introl eq_refl)) as [E|Hya]; [exact E|].
      exfalso. specialize (Hx y Hya). specialize (Hy x Hxb).
      unfold precedes, _compare_value in *.
      rewrite (Compare_asym _ _ Hx) in Hy. discriminate. }
    subst y. f_equal. apply IH; auto.
    intros p. split; intros Hp.
    + destruct (proj1 (Hm p) (or_intror Hp)) as [E|H]; [|exact H].
      subst p. exfalso. exact (Hirr x (Hx x Hp)).
    + destruct (proj2 (Hm p) (or_intror Hp)) as [E|H]; [|exact H].
      subst p. exfalso. exact (Hirr x (Hy x Hp)).
Qed.

Lemma find_equivalent_same_members (l l' : list value_type) k :
  (forall p, In p l <-> In p l') ->
  (forall p q, In p l -> In q l -> eq_key (fst p) (fst q) = true -> p = q) ->
  List.find (fun q : value_type => eq_key (fst q) k) l =
  List.find (fun q : value_type => eq_key (fst q) k) l'.
Proof.
  intros Hm Hd.
  destruct (List.find (fun q : value_type => eq_key (fst q) k) l) as [p|] eqn:E;
    destruct (List.find (fun q : value_type => eq_key (fst q) k) l') as [p'|] eqn:E';
    try reflexivity.
  - apply find_some in E. apply find_some in E'.
    destruct E as [Hp Hpk]. destruct E' as [Hp' Hpk'].
    f_equal. apply Hd; [exact Hp|now apply Hm|].
    rewrite eq_key_sym in Hpk'. eapply Compare_equiv_trans; eassumption.
  - apply find_some in E. destruct E as [Hp Hpk].
    rewrite (find_none _ _ E' p (proj1 (Hm p) Hp)) in Hpk. discriminate.
  - apply find_some in E'. destruct E' as [Hp' Hpk'].
    rewrite (find_none _ _ E p' (proj2 (Hm p') Hp')) in Hpk'. discriminate.
Qed.

(** X22: the container that [insert(first, last)] builds does not depend
    on the order of the range: on a sorted container, two ranges with the
    same entries, in which entries with equivalent keys are the same entry,
    give the same container.  In particular two [insert] calls with
    non-equivalent keys give the same container in either order. *)
Theorem insertion_order_is_irrelevant v l l' :
  sorted v = true ->
  (forall p, In p l <-> In p l') ->
  (forall p q, In p l -> In q l -> eq_key (fst p) (fst q) = true -> p = q) ->
  insert_range v l = insert_range v l'.
Proof.
  intros Hs Hm Hd.
  pose proof (insert_range_sorted l v Hs) as S1.
  pose proof (insert_range_sorted l' v Hs) as S2.
  apply sorted_same_members; auto.
  intros p. rewrite (In_lookup _ p S1), (In_lookup _ p S2).
  rewrite !insert_range_lookup by assumption.
  now rewrite (find_equivalent_same_members l l' (fst p) Hm Hd).
Qed.

(** X23: for a key that is after every stored key, [lower_bound],
    [upper_bound] and [find] all return [end()], and an un-hinted [insert]
    appends; for a key that is before every stored key, [lower_bound] and
    [upper_bound] return [begin()] and [insert] puts the entry in front.
    Neither needs the container to be sorted. *)
Theorem bounds_at_the_extremes v k x :
  (Forall (below k) v ->
     lower_bound v k = end_ v /\ upper_bound v k = end_ v /\ find v k = end_ v /\
     insert v (k, x) = (v ++ [(k, x)], (size v, true))) /\
  (Forall (above k) v ->
     lower_bound v k = begin_ v /\ upper_bound v k = begin_ v /\
     insert v (k, x) = ((k, x) :: v, (begin_ v, true))).
Proof.
  split; intros H.
  - pose proof (lower_bound_absent k v [] H (Forall_nil _)) as L.
    pose proof (upper_bound_absent k v [] H (Forall_nil _)) as U.
    pose proof (find_absent k v [] H (Forall_nil _)) as F.
    pose proof (insert_absent (k, x) v [] H (Forall_nil _)) as I.
    rewrite app_nil_r in L, U, F, I. auto.
  - pose proof (lower_bound_absent k [] v (Forall_nil _) H) as L.
    pose proof (upper_bound_absent k [] v (Forall_nil _) H) as U.
    pose proof (insert_absent (k, x) [] v (Forall_nil _) H) as I.
    simpl in L, U, I. auto.
Qed.

(** ** Comparing whole containers *)

Section ContainerComparison.
Variables T_eq T_lt : T -> T -> bool.

Lemma same_entry_keys x y :
  same_entry T_eq x y = eq_key (fst x) (fst y) && T_eq (snd x) (snd y).
Proof. reflexivity. Qed.

Lemma operator_eq_Forall2 a b :
  operator_eq T_eq a b = true <->
  Forall2 (fun x y : value_type => eq_key (fst x) (fst y) = true /\ T_eq (snd x) (snd y) = true) a b.
Proof.
  unfold operator_eq, size. revert b.
  induction a as [|x a IH]; intros [|y b]; simpl.
  - split; [constructor|reflexivity].
  - split; [discriminate|intros H; inversion H].
  - split; [discriminate|intros H; inversion H].
  - rewrite same_entry_keys.
    destruct (eq_key (fst x) (fst y) && T_eq (snd x) (snd y)) eqn:E; simpl.
    + apply andb_true_iff in E. rewrite IH. split.
      * intros H. now constructor.
      * intros H. now inversion H.
    + rewrite andb_false_r. split; [discriminate|].
      intros H. inversion H as [|? ? ? ? [H1 H2] _]; subst.
      rewrite H1, H2 in E. discriminate.
Qed.

(** X17: [operator==] on two containers holds exactly when they have the
    same length and, position by position, equivalent keys and equal
    values; with a value equality that is reflexive, symmetric and
    transitive it is reflexive, symmetric and transitive, on sorted and
    unsorted containers alike. *)
Theorem operator_eq_equivalence :
  (forall x, T_eq x x = true) ->
  (forall x y, T_eq x y = true -> T_eq y x = true) ->
  (forall x y z, T_eq x y = true -> T_eq y z = true -> T_eq x z = true) ->
  (forall a b, operator_eq T_eq a b = true <->
     Forall2 (fun x y : value_type => eq_key (fst x) (fst y) = true /\ T_eq (snd x) (snd y) = true) a b) /\
  (forall a, operator_eq T_eq a a = true) /\
  (forall a b, operator_eq T_eq a b = true -> operator_eq T_eq b a = true) /\
  (forall a b c, operator_eq T_eq a b = true -> operator_eq T_eq b c = true ->
     operator_eq T_eq a c = true).
Proof.
  intros Hrefl Hsym Htrans.
  split; [exact operator_eq_Forall2|]. split; [|split].
  - intros a. apply operator_eq_Forall2.
    induction a as [|x a IH]; constructor; [|exact IH].
    split; [apply eq_key_refl|apply Hrefl].
  - intros a b H. apply operator_eq_Forall2 in H. apply operator_eq_Forall2.
    induction H as [|x y a b [H1 H2] _ IH]; constructor; [|exact IH].
    split; [now rewrite eq_key_sym|now apply Hsym].
  - intros a b c Hab Hbc.
    apply operator_eq_Forall2 in Hab. apply operator_eq_Forall2 in Hbc.
    apply operator_eq_Forall2. revert c Hbc.
    induction Hab as [|x y a b [H1 H2] _ IH]; intros c Hbc.
    + inversion Hbc. constructor.
    + inversion Hbc as [|? z ? c' [H3 H4] Hbc']; subst.
      constructor; [|now apply IH].
      split; [eapply Compare_equiv_trans; eassumption|eapply Htrans; eassumption].
Qed.

(** X18: two sorted containers that compare equal with [operator==] map
    the same keys, to equal values: what a key maps to in one, it maps to an
    entry with an equivalent key and an equal value in the other. *)
Theorem equal_containers_equal_lookups a b k p :
  sorted a = true -> sorted b = true ->
  operator_eq T_eq a b = true ->
  lookup a k = Some p ->
  exists q, lookup b k = Some q /\
            eq_key (fst p) (fst q) = true /\ T_eq (snd p) (snd q) = true.
Proof.
  intros Ha Hb Heq Hp.
  apply operator_eq_Forall2 in Heq.
  apply lookup_Some in Hp; [|exact Ha]. destruct Hp as [Hin Hk].
  assert (Hq : exists q, In q b /\ eq_key (fst p) (fst q) = true /\
                         T_eq (snd p) (snd q) = true).
  { clear Ha Hb Hk. induction Heq as [|x y a b [H1 H2] _ IH]; [destruct Hin|].
    destruct Hin as [->|Hin].
    - exists y. split; [now left|now split].
    - destruct (IH Hin) as (q & Hq & H). exists q. split; [now right|exact H]. }
  destruct Hq as (q & Hq & H1 & H2). exists q. split; [|now split].
  apply lookup_Some; [exact Hb|]. split; [exact Hq|].
  rewrite eq_key_sym in H1. eapply Compare_equiv_trans; eassumption.
Qed.

Lemma entry_less_asym :
  (forall x y, T_lt x y = true -> T_lt y x = false) ->
  forall x y, entry_less T_lt x y = true -> entry_less T_lt y x = false.
Proof.
  intros Hasym x y. unfold entry_less.
  rewrite (orb_comm (Compare (fst y) (fst x))).
  destruct (negb (Compare (fst x) (fst y) || Compare (fst y) (fst x))).
  - apply Hasym.
  - apply Compare_asym.
Qed.

Lemma lexicographical_compare_asym (comp : value_type -> value_type -> bool) :
  (forall x y, comp x y = true -> comp y x = false) ->
  forall a b, Std.lexicographical_compare a b comp = true ->
              Std.lexicographical_compare b a comp = false.
Proof.
  intros Hasym. induction a as [|x a IH]; intros [|y b] H; simpl in *;
    try reflexivity; try discriminate.
  destruct (comp x y) eqn:Hxy.
  - now rewrite (Hasym _ _ Hxy).
  - destruct (comp y x) eqn:Hyx; [discriminate|]. now apply IH.
Qed.

Lemma lexicographical_compare_extension (comp : value_type -> value_type -> bool) :
  (forall x, comp x x = false) ->
  forall a l, Std.lexicographical_compare a (a ++ l) comp = negb (length l =? 0).
Proof.
  intros Hirr. induction a as [|x a IH]; intros l; simpl.
  - now destruct l.
  - now rewrite Hirr, IH.
Qed.

(** X19: with a value order in which no two values are each before the
    other, [operator<] on containers is irreflexive and asymmetric, of two
    containers at least one is [<=] the other, [>] and [>=] are [<] and [<=]
    with the sides exchanged, and a container is [<] every container that
    continues it with further entries. *)
Theorem operator_lt_strict :
  (forall x y, T_lt x y = true -> T_lt y x = false) ->
  (forall a, operator_lt T_lt a a = false) /\
  (forall a b, operator_lt T_lt a b = true -> operator_lt T_lt b a = false) /\
  (forall a b, operator_le T_lt a b = true \/ operator_le T_lt b a = true) /\
  (forall a b, operator_gt T_lt a b = operator_lt T_lt b a /\
               operator_ge T_lt a b = operator_le T_lt b a) /\
  (forall a l, operator_lt T_lt a (a ++ l) = negb (empty l)).
Proof.
  intros Hasym.
  assert (Hlt : forall a b, operator_lt T_lt a b = true -> operator_lt T_lt b a = false).
  { intros a b. unfold operator_lt.
    apply lexicographical_compare_asym. now apply entry_less_asym. }
  assert (Hirr : forall x, entry_less T_lt x x = false).
  { intros x. destruct (entry_less T_lt x x) eqn:E; [|reflexivity].
    rewrite <- E. now apply entry_less_asym. }
  split; [|split; [exact Hlt|split; [|split]]].
  - intros a. destruct (operator_lt T_lt a a) eqn:E; [|reflexivity].
    rewrite <- E. now apply Hlt.
  - intros a b. unfold operator_le, operator_gt.
    destruct (operator_lt T_lt b a) eqn:E; [right|now left].
    now rewrite (Hlt _ _ E).
  - intros a b. split; reflexivity.
  - intros a l. unfold operator_lt, empty.
    now apply lexicographical_compare_extension.
Qed.

Lemma same_entry_neither_less :
  (forall x y, T_eq x y = negb (T_lt x y || T_lt y x)) ->
  forall x y,
    same_entry T_eq x y = negb (entry_less T_lt x y || entry_less T_lt y x).
Proof.
  intros Hcons x y. unfold same_entry, entry_less.
  rewrite (orb_comm (Compare (fst y) (fst x))), Hcons.
  destruct (Compare (fst x) (fst y)), (Compare (fst y) (fst x)); simpl;
    rewrite ?andb_true_r; reflexivity.
Qed.

(** X20: when the value equality is "neither value is before the other",
    [a == b] holds exactly when both [a <= b] and [a >= b] hold, on every
    pair of containers. *)
Theorem operator_eq_is_le_and_ge :
  (forall x y, T_eq x y = negb (T_lt x y || T_lt y x)) ->
  forall a b,
    operator_eq T_eq a b = operator_le T_lt a b && operator_ge T_lt a b.
Proof.
  intros Hcons.
  unfold operator_eq, operator_le, operator_ge, operator_gt, operator_lt, size.
  induction a as [|x a IH]; intros [|y b];
    cbn [Std.equal Std.lexicographical_compare length Nat.eqb negb andb];
    try reflexivity.
  rewrite (same_entry_neither_less Hcons).
  destruct (entry_less T_lt x y), (entry_less T_lt y x);
    cbn [negb orb andb]; rewrite ?andb_false_r; try reflexivity.
  apply IH.
Qed.
End ContainerComparison.
End StrictWeakOrder.
End Stdmap.

(** ** [goblib::stdmap<int,int>] *)

Lemma int_less_irrefl (a : Z) : int_less a a = false.
Proof. apply Z.ltb_irrefl. Qed.

Lemma int_less_trans (a b c : Z) :
  int_less a b = true -> int_less b c = true -> int_less a c = true.
Proof. unfold int_less. rewrite !Z.ltb_lt. lia. Qed.

Lemma int_less_equiv_trans (a b c : Z) :
  eq_key int_less a b = true -> eq_key int_less b c = true ->
  eq_key int_less a c = true.
Proof.
  unfold eq_key, ne_key, int_less.
  rewrite !negb_true_iff, !orb_false_iff, !Z.ltb_ge. lia.
Qed.

(** *** The theorems at work on a map with keys 1, 3 and 5 *)

Lemma insert_existing_key_unmodified_witness :
  sorted int_less odd_keys = true /\
  insert int_less odd_keys (3, 99)%Z = (odd_keys, (1, false)) /\
  emplace int_less odd_keys (3, 99)%Z = (odd_keys, (1, false)) /\
  insert_P int_less odd_keys (3, 99)%Z = (odd_keys, (1, false)) /\
  read_ref (fst (insert int_less odd_keys (3, 99)%Z)) 1 = Some 30%Z.
Proof.
  split; [reflexivity|].
  exact (insert_existing_key_unmodified Z Z int_less
           int_less_irrefl int_less_trans int_less_equiv_trans
           odd_keys 3%Z 3%Z 30%Z 99%Z 1 eq_refl eq_refl eq_refl).
Defined.

Lemma erase_key_spec_witness :
  sorted int_less odd_keys = true /\
  erase int_less odd_keys 3%Z = ([(1, 10); (5, 50)]%Z, 1) /\
  find int_less (fst (erase int_less odd_keys 3%Z)) 3%Z =
    end_ (fst (erase int_less odd_keys 3%Z)).
Proof.
  split; [reflexivity|].
  pose proof (proj1 (erase_key_spec Z Z int_less
                       int_less_irrefl int_less_trans int_less_equiv_trans
                       odd_keys 3%Z eq_refl) 1 (3, 30)%Z eq_refl eq_refl) as H.
  split; [exact (proj1 H)|exact (proj1 (proj2 (proj2 H)))].
Defined.

Lemma operator_index_spec_witness :
  sorted int_less odd_keys = true /\
  operator_index int_less 0%Z odd_keys 3%Z = (odd_keys, 1) /\
  read_ref odd_keys 1 = Some 30%Z.
Proof.
  split; [reflexivity|].
  exact (proj1 (operator_index_spec Z Z int_less 0%Z
                  int_less_irrefl int_less_trans int_less_equiv_trans
                  odd_keys 3%Z eq_refl) 1 (3, 30)%Z eq_refl eq_refl).
Defined.

Lemma odd_keys_without_4 : ~ present Z Z int_less odd_keys 4%Z.
Proof.
  intros (p & Hin & Hp).
  destruct Hin as [<-|[<-|[<-|[]]]]; discriminate Hp.
Qed.


Lemma bounds_and_equal_range_witness :
  sorted int_less odd_keys = true /\
  equal_range int_less odd_keys 3%Z =
    (lower_bound int_less odd_keys 3%Z, upper_bound int_less odd_keys 3%Z) /\
  (upper_bound int_less odd_keys 3%Z = lower_bound int_less odd_keys 3%Z \/
   upper_bound int_less odd_keys 3%Z = lower_bound int_less odd_keys 3%Z + 1).
Proof.
  split; [reflexivity|].
  pose proof (bounds_and_equal_range Z Z int_less
                int_less_irrefl int_less_trans int_less_equiv_trans
                odd_keys 3%Z eq_refl) as H.
  cbv zeta in H.
  split; [exact (proj1 (proj2 (proj2 H)))|exact (proj1 (proj2 (proj2 (proj2 H))))].
Defined.

Lemma insert_erase_frame_witness :
  sorted int_less odd_keys = true /\
  fst (erase int_less odd_keys 3%Z) = [(1, 10); (5, 50)]%Z /\
  fst (erase int_less odd_keys 3%Z) =
    filter (fun q : Z * Z => ne_key int_less (fst q) 3%Z) odd_keys.
Proof.
  split; [reflexivity|].
  pose proof (proj2 (insert_erase_frame Z Z int_less 0%Z
                       int_less_irrefl int_less_trans int_less_equiv_trans
                       odd_keys 3%Z eq_refl) 1 (3, 30)%Z eq_refl eq_refl) as H.
  cbv zeta in H.
  split; [exact (proj1 H)|exact (proj1 (proj2 H))].
Defined.

Lemma reachable_sorted_unique_witness :
  reachable Z Z int_less [(1, 10); (3, 30)]%Z /\
  sorted int_less [(1, 10); (3, 30)]%Z = true.
Proof.
  assert (R : reachable Z Z int_less [(1, 10); (3, 30)]%Z).
  { apply (reachable_step Z Z int_less [(3, 30)]%Z).
    - apply (reachable_step Z Z int_less []).
      + apply reachable_empty.
      + exact (step_insert Z Z int_less [] (3, 30)%Z).
    - exact (step_emplace Z Z int_less [(3, 30)]%Z (1, 10)%Z). }
  split; [exact R|].
  exact (proj1 (reachable_sorted_unique Z Z int_less
                  int_less_irrefl int_less_trans int_less_equiv_trans _ R)).
Defined.

Lemma emplace_hint_not_end_witness :
  sorted int_less odd_keys = true /\
  find int_less odd_keys 3%Z = 1 /\
  emplace_hint int_less odd_keys 0 (3, 99)%Z = (odd_keys, 0).
Proof.
  split; [reflexivity|]. split; [reflexivity|].
  apply (proj1 (emplace_hint_not_end Z Z int_less
                  int_less_irrefl int_less_trans int_less_equiv_trans
                  odd_keys 0 (3, 99)%Z eq_refl ltac:(unfold size, odd_keys; simpl; lia))).
  exists (3, 30)%Z. split; [right; left; reflexivity|reflexivity].
Defined.

(** *** Further properties at work on the same map *)

Lemma int_less_asym (a b : Z) : int_less a b = true -> int_less b a = false.
Proof. unfold int_less. rewrite Z.ltb_lt, Z.ltb_ge. lia. Qed.

Lemma int_eq_sym (a b : Z) : (a =? b)%Z = true -> (b =? a)%Z = true.
Proof. rewrite !Z.eqb_eq. auto. Qed.

Lemma int_eq_trans (a b c : Z) :
  (a =? b)%Z = true -> (b =? c)%Z = true -> (a =? c)%Z = true.
Proof. rewrite !Z.eqb_eq. congruence. Qed.

Lemma int_eq_neither_less (a b : Z) :
  (a =? b)%Z = negb (int_less a b || int_less b a).
Proof.
  unfold int_less.
  destruct (Z.eqb_spec a b), (Z.ltb_spec a b), (Z.ltb_spec b a);
    simpl; try reflexivity; lia.
Qed.

Lemma find_spec_witness :
  sorted int_less odd_keys = true /\
  (find int_less odd_keys 3%Z <> end_ odd_keys <-> present Z Z int_less odd_keys 3%Z).
Proof.
  split; [reflexivity|].
  exact (proj1 (find_spec Z Z int_less
                  int_less_irrefl int_less_trans int_less_equiv_trans
                  odd_keys 3%Z eq_refl)).
Defined.

Lemma insert_then_find_witness :
  sorted int_less odd_keys = true /\
  find int_less (fst (insert int_less odd_keys (4, 40)%Z)) 4%Z = 2.
Proof.
  split; [reflexivity|].
  exact (proj1 (insert_then_find Z Z int_less
                  int_less_irrefl int_less_trans int_less_equiv_trans
                  odd_keys (4, 40)%Z eq_refl)).
Defined.

Lemma insert_erase_round_trip_witness :
  sorted int_less odd_keys = true /\
  erase int_less (fst (insert int_less odd_keys (4, 40)%Z)) 4%Z = (odd_keys, 1).
Proof.
  split; [reflexivity|].
  exact (insert_erase_round_trip Z Z int_less
           int_less_irrefl int_less_trans int_less_equiv_trans
           odd_keys 4%Z 40%Z eq_refl odd_keys_without_4).
Defined.

Lemma erase_insert_round_trip_witness :
  sorted int_less odd_keys = true /\
  fst (insert int_less (fst (erase int_less odd_keys 3%Z)) (3, 30)%Z) = odd_keys.
Proof.
  split; [reflexivity|].
  exact (proj1 (proj2 (erase_insert_round_trip Z Z int_less
                         int_less_irrefl int_less_trans int_less_equiv_trans
                         odd_keys (3, 30)%Z eq_refl
                         (or_intror (or_introl eq_refl))))).
Defined.

Lemma lookup_after_insert_witness :
  sorted int_less odd_keys = true /\
  lookup int_less (fst (insert int_less odd_keys (3, 99)%Z)) 3%Z = Some (3, 30)%Z.
Proof.
  split; [reflexivity|].
  exact (lookup_after_insert Z Z int_less
           int_less_irrefl int_less_trans int_less_equiv_trans
           odd_keys (3, 99)%Z 3%Z eq_refl).
Defined.

Lemma lookup_after_erase_witness :
  sorted int_less odd_keys = true /\
  lookup int_less (fst (erase int_less odd_keys 3%Z)) 5%Z = Some (5, 50)%Z.
Proof.
  split; [reflexivity|].
  exact (lookup_after_erase Z Z int_less
           int_less_irrefl int_less_trans int_less_equiv_trans
           odd_keys 3%Z 5%Z eq_refl).
Defined.

Lemma insert_range_first_wins_witness :
  sorted int_less odd_keys = true /\
  sorted int_less (insert_range int_less odd_keys [(4, 40); (2, 20); (4, 41)]%Z) = true /\
  lookup int_less (insert_range int_less odd_keys [(4, 40); (2, 20); (4, 41)]%Z) 4%Z =
    Some (4, 40)%Z.
Proof.
  split; [reflexivity|].
  pose proof (insert_range_first_wins Z Z int_less
                int_less_irrefl int_less_trans int_less_equiv_trans
                odd_keys [(4, 40); (2, 20); (4, 41)]%Z eq_refl) as H.
  split; [exact (proj1 H)|exact (proj2 (proj2 H) 4%Z)].
Defined.

Lemma range_constructor_on_ascending_input_witness :
  sorted int_less odd_keys = true /\
  stdmap_range odd_keys = insert_range int_less (stdmap_default Z Z) odd_keys.
Proof.
  split; [reflexivity|].
  exact (proj1 (range_constructor_on_ascending_input Z Z int_less
                  int_less_irrefl int_less_trans odd_keys [] eq_refl)).
Defined.

Lemma erase_range_spec_witness :
  sorted int_less odd_keys = true /\
  1 <= 2 <= size odd_keys /\
  sorted int_less (fst (erase_range odd_keys 1 2)) = true.
Proof.
  assert (B : 1 <= 2 <= size odd_keys) by (unfold size, odd_keys; simpl; lia).
  split; [reflexivity|]. split; [exact B|].
  exact (proj1 (proj2 (erase_range_spec Z Z int_less
                         int_less_irrefl int_less_trans int_less_equiv_trans
                         odd_keys 1 2 eq_refl B))).
Defined.

Lemma end_hint_appends_witness :
  sorted int_less odd_keys = true /\
  insert_hint int_less odd_keys (end_ odd_keys) (7, 70)%Z =
    (odd_keys ++ [(7, 70)%Z], size odd_keys).
Proof.
  split; [reflexivity|].
  exact (proj1 (end_hint_appends Z Z int_less
                  int_less_irrefl int_less_trans odd_keys (7, 70)%Z eq_refl)).
Defined.

Lemma inner_hint_is_ignored_witness :
  0 < size odd_keys /\
  insert_hint int_less odd_keys 0 (4, 40)%Z =
    (fst (insert int_less odd_keys (4, 40)%Z),
     fst (snd (insert int_less odd_keys (4, 40)%Z))).
Proof.
  assert (B : 0 < size odd_keys) by (unfold size, odd_keys; simpl; lia).
  split; [exact B|].
  exact (proj1 (inner_hint_is_ignored Z Z int_less odd_keys 0 (4, 40)%Z B)).
Defined.

Lemma positions_stay_in_range_witness :
  lower_bound int_less [(2, 20); (1, 10)]%Z 1%Z <= size [(2, 20); (1, 10)]%Z.
Proof.
  exact (proj1 (positions_stay_in_range Z Z int_less 0%Z int_less_irrefl
                  [(2, 20); (1, 10)]%Z 1%Z (1, 10)%Z)).
Defined.

Lemma count_counts_equivalents_witness :
  sorted int_less odd_keys = true /\
  count int_less odd_keys 3%Z =
    length (filter (fun p : Z * Z => eq_key int_less (fst p) 3%Z) odd_keys).
Proof.
  split; [reflexivity|].
  exact (count_counts_equivalents Z Z int_less
           int_less_irrefl int_less_trans int_less_equiv_trans
           odd_keys 3%Z eq_refl).
Defined.

Lemma at_after_operator_index_witness :
  sorted int_less odd_keys = true /\
  at_ int_less false (fst (operator_index int_less 0%Z odd_keys 4%Z)) 4%Z =
    (fst (operator_index int_less 0%Z odd_keys 4%Z),
     Returns (snd (operator_index int_less 0%Z odd_keys 4%Z))).
Proof.
  split; [reflexivity|].
  exact (at_after_operator_index Z Z int_less 0%Z false
           int_less_irrefl int_less_trans int_less_equiv_trans
           odd_keys 4%Z eq_refl).
Defined.

Lemma second_call_changes_nothing_witness :
  sorted int_less odd_keys = true /\
  insert int_less (fst (insert int_less odd_keys (4, 40)%Z)) (4, 41)%Z =
    (fst (insert int_less odd_keys (4, 40)%Z),
     (fst (snd (insert int_less odd_keys (4, 40)%Z)), false)).
Proof.
  split; [reflexivity|].
  exact (proj1 (second_call_changes_nothing Z Z int_less 0%Z
                  int_less_irrefl int_less_trans int_less_equiv_trans
                  odd_keys (4, 40)%Z (4, 41)%Z eq_refl eq_refl)).
Defined.

Lemma operator_eq_equivalence_witness :
  operator_eq int_less Z.eqb odd_keys odd_keys = true.
Proof.
  exact (proj1 (proj2 (operator_eq_equivalence Z Z int_less
                         int_less_irrefl int_less_equiv_trans Z.eqb
                         Z.eqb_refl int_eq_sym int_eq_trans)) odd_keys).
Defined.

Lemma equal_containers_equal_lookups_witness :
  sorted int_less odd_keys = true /\
  exists q, lookup int_less odd_keys 3%Z = Some q /\
            eq_key int_less 3%Z (fst q) = true /\ (30 =? snd q)%Z = true.
Proof.
  split; [reflexivity|].
  exact (equal_containers_equal_lookups Z Z int_less
           int_less_irrefl int_less_trans int_less_equiv_trans Z.eqb
           odd_keys odd_keys 3%Z (3, 30)%Z eq_refl eq_refl eq_refl eq_refl).
Defined.

Lemma operator_lt_strict_witness :
  operator_lt int_less int_less odd_keys (odd_keys ++ [(7, 70)%Z]) = true.
Proof.
  exact (proj2 (proj2 (proj2 (proj2
           (operator_lt_strict Z Z int_less int_less_irrefl int_less_trans
              int_less int_less_asym)))) odd_keys [(7, 70)%Z]).
Defined.

Lemma operator_eq_is_le_and_ge_witness :
  operator_eq int_less Z.eqb odd_keys [(1, 10); (3, 31); (5, 50)]%Z =
  operator_le int_less int_less odd_keys [(1, 10); (3, 31); (5, 50)]%Z &&
  operator_ge int_less int_less odd_keys [(1, 10); (3, 31); (5, 50)]%Z.
Proof.
  exact (operator_eq_is_le_and_ge Z Z int_less Z.eqb int_less
           int_eq_neither_less odd_keys [(1, 10); (3, 31); (5, 50)]%Z).
Defined.

Lemma iteration_order_witness :
  sorted int_less odd_keys = true /\
  int_less 1%Z 5%Z = true /\ eq_key int_less 1%Z 5%Z = false.
Proof.
  split; [reflexivity|].
  exact (proj1 (iteration_order Z Z int_less int_less_trans odd_keys eq_refl)
               0 2 (1, 10)%Z (5, 50)%Z (le_S 1 1 (le_n 1)) eq_refl eq_refl).
Defined.

Lemma two_four_either_order (p : Z * Z) :
  In p [(4, 40); (2, 20)]%Z <-> In p [(2, 20); (4, 40)]%Z.
Proof. simpl. tauto. Qed.

Lemma two_four_distinct (p q : Z * Z) :
  In p [(4, 40); (2, 20)]%Z -> In q [(4, 40); (2, 20)]%Z ->
  eq_key int_less (fst p) (fst q) = true -> p = q.
Proof.
  intros [<-|[<-|[]]] [<-|[<-|[]]] H; try reflexivity; discriminate H.
Qed.

Lemma insertion_order_is_irrelevant_witness :
  sorted int_less odd_keys = true /\
  insert_range int_less odd_keys [(4, 40); (2, 20)]%Z =
  insert_range int_less odd_keys [(2, 20); (4, 40)]%Z.
Proof.
  split; [reflexivity|].
  exact (insertion_order_is_irrelevant Z Z int_less
           int_less_irrefl int_less_trans int_less_equiv_trans
           odd_keys [(4, 40); (2, 20)]%Z [(2, 20); (4, 40)]%Z eq_refl
           two_four_either_order two_four_distinct).
Defined.

Lemma odd_keys_below_9 : Forall (below Z Z int_less 9%Z) odd_keys.
Proof. repeat constructor. Qed.

Lemma bounds_at_the_extremes_witness :
  lower_bound int_less odd_keys 9%Z = end_ odd_keys /\
  upper_bound int_less odd_keys 9%Z = end_ odd_keys /\
  find int_less odd_keys 9%Z = end_ odd_keys /\
  insert int_less odd_keys (9, 90)%Z = (odd_keys ++ [(9, 90)%Z], (size odd_keys, true)).
Proof.
  exact (proj1 (bounds_at_the_extremes Z Z int_less
                  int_less_irrefl int_less_trans odd_keys 9%Z 90%Z)
               odd_keys_below_9).
Defined.

(** *** Where the header departs from the invariant *)

(** C1: the range constructor, the initializer-list constructor and the
    initializer-list assignment copy their input into the vector as it
    comes.  From the unsorted list [{2,20},{1,10}] the container holds the
    keys in the order 2, 1, and [find] reaches neither of them; from a list
    with the key 1 twice it holds both entries.  [insert(first, last)] on an
    empty container sorts the same input and keeps one entry per key. *)
Theorem range_constructor_keeps_input_order :
  stdmap_range [(2, 20); (1, 10)]%Z = [(2, 20); (1, 10)]%Z /\
  stdmap_initializer_list [(2, 20); (1, 10)]%Z = [(2, 20); (1, 10)]%Z /\
  assign_initializer_list odd_keys [(2, 20); (1, 10)]%Z = [(2, 20); (1, 10)]%Z /\
  sorted int_less (stdmap_initializer_list [(2, 20); (1, 10)]%Z) = false /\
  find int_less (stdmap_initializer_list [(2, 20); (1, 10)]%Z) 1%Z =
    end_ (stdmap_initializer_list [(2, 20); (1, 10)]%Z) /\
  count int_less (stdmap_initializer_list [(2, 20); (1, 10)]%Z) 2%Z = 0 /\
  stdmap_initializer_list [(1, 10); (1, 11)]%Z = [(1, 10); (1, 11)]%Z /\
  sorted int_less (stdmap_initializer_list [(1, 10); (1, 11)]%Z) = false /\
  insert_range int_less (stdmap_default Z Z) [(2, 20); (1, 10); (1, 11)]%Z =
    [(1, 10); (2, 20)]%Z.
Proof. repeat split. Qed.

(** C2: with the end sentinel as hint, the hinted [insert] and
    [emplace_hint] append the entry without looking at its key.  On the
    sorted map with keys 1 and 3, [insert(end(), {2,20})] stores 2 after 3,
    where the un-hinted [insert] stores it between 1 and 3; and
    [insert(end(), {1,11})] stores a second entry with key 1. *)
Theorem insert_hint_end_breaks_order :
  sorted int_less [(1, 10); (3, 30)]%Z = true /\
  insert_hint int_less [(1, 10); (3, 30)]%Z 2 (2, 20)%Z =
    ([(1, 10); (3, 30); (2, 20)]%Z, 2) /\
  emplace_hint int_less [(1, 10); (3, 30)]%Z 2 (2, 20)%Z =
    ([(1, 10); (3, 30); (2, 20)]%Z, 2) /\
  insert int_less [(1, 10); (3, 30)]%Z (2, 20)%Z =
    ([(1, 10); (2, 20); (3, 30)]%Z, (1, true)) /\
  sorted int_less (fst (insert_hint int_less [(1, 10); (3, 30)]%Z 2 (2, 20)%Z)) = false /\
  insert_hint int_less [(1, 10); (3, 30)]%Z 2 (1, 11)%Z =
    ([(1, 10); (3, 30); (1, 11)]%Z, 2) /\
  insert int_less [(1, 10); (3, 30)]%Z (1, 11)%Z =
    ([(1, 10); (3, 30)]%Z, (0, false)).
Proof. repeat split. Qed.

(** C4: a hinted [insert] with the end sentinel as hint is an [insert]
    call too.  From the empty container, [insert({2,20})] followed by
    [insert(end(), {1,10})] reaches a state that holds the keys in the order
    2, 1, where [find(1)] is the end sentinel and [count(1)] is 0 although
    an entry with key 1 is stored; [insert({1,10})] followed by
    [insert(end(), {1,11})] reaches a state with two entries for the key
    1. *)
Theorem hinted_insert_reaches_unsorted_state :
  fst (insert int_less (stdmap_default Z Z) (2, 20)%Z) = [(2, 20)]%Z /\
  insert_hint int_less [(2, 20)]%Z (end_ [(2, 20)]%Z) (1, 10)%Z =
    ([(2, 20); (1, 10)]%Z, 1) /\
  sorted int_less [(2, 20); (1, 10)]%Z = false /\
  find int_less [(2, 20); (1, 10)]%Z 1%Z = end_ [(2, 20); (1, 10)]%Z /\
  count int_less [(2, 20); (1, 10)]%Z 1%Z = 0 /\
  fst (insert int_less (stdmap_default Z Z) (1, 10)%Z) = [(1, 10)]%Z /\
  insert_hint int_less [(1, 10)]%Z (end_ [(1, 10)]%Z) (1, 11)%Z =
    ([(1, 10); (1, 11)]%Z, 1) /\
  length (filter (fun p : Z * Z => eq_key int_less (fst p) 1%Z)
                 [(1, 10); (1, 11)]%Z) = 2.
Proof. repeat split. Qed.

(** C9 as written fails: on the sorted map with keys 1 and 3, the hint
    [begin()] is not a valid hint for the key 5 (5 is not before 1), yet
    [emplace_hint(begin(), 5, 50)] inserts the entry, at the end, and
    returns position 2 rather than the hint's position 0. *)
Lemma emplace_hint_invalid_hint_inserts :
  sorted int_less [(1, 10); (3, 30)]%Z = true /\
  valid_hint int_less [(1, 10); (3, 30)]%Z 0 (5, 50)%Z = false /\
  emplace_hint int_less [(1, 10); (3, 30)]%Z 0 (5, 50)%Z =
    ([(1, 10); (3, 30); (5, 50)]%Z, 2) /\
  emplace_hint int_less [(1, 10); (3, 30)]%Z 0 (5, 50)%Z <>
    ([(1, 10); (3, 30)]%Z, 0).
Proof. repeat split. discriminate. Qed.
